(** * Studymate question answering engine (qa_engine.py)

    A shallow embedding of the module's answer pipeline: the pattern
    cache, the term extractor, the sentence selector, the definition and
    example extractors, the answer composers, the remote adapter and the
    orchestrator [generate_answer], followed by the properties proved
    about them.

    Text.  A Python [str] is a sequence of code points.  Here a string is
    a [list ascii], each character standing for the code point of the same
    number (U+0000 to U+00FF).  On that range the tables below
    ([is_space], [word_char], [lower_char]) are those of Python 3:
    [str.isspace], the class [\w] of [re] on [str] patterns, and
    [str.lower], which maps one character to one character there.  Text
    with code points above U+00FF is outside the model.  The answer
    templates contain a few pictographs above that range; they are
    carried as the bytes of their UTF-8 encoding, none of which is a
    white-space character, and the only operation the module applies to
    template text is the white-space split of the word count.

    Patterns.  The 18 pattern sources of the module are compiled and
    matched by the definitions of this file.  [get_cached_pattern] takes
    any source string: for the others, the outcome of [re.compile] is a
    parameter ([ReLibrary]), and the properties hold for every value of
    it. *)

From Stdlib Require Import Ascii String.
From stdpp Require Import gmap strings list sorting pretty.

Set Default Proof Using "Type".
Local Open Scope nat_scope.

(** ** Characters and strings *)

Abbreviation str := (list ascii).

Definition lit (s : string) : str := list_ascii_of_string s.
Arguments lit : simpl never.

Definition code (c : ascii) : nat := nat_of_ascii c.

Definition between (lo hi : nat) (c : ascii) : bool :=
  (lo <=? code c) && (code c <=? hi).

(** [str.isspace] on one character. *)
Definition is_space (c : ascii) : bool :=
  between 9 13 c || between 28 32 c || (code c =? 133) || (code c =? 160).

(** The class [[a-zA-Z]]. *)
Definition ascii_letter (c : ascii) : bool :=
  between 65 90 c || between 97 122 c.

Definition ascii_lower_letter (c : ascii) : bool := between 97 122 c.

Definition ascii_digit (c : ascii) : bool := between 48 57 c.

(** The class [\w] of a [str] pattern: alphanumeric characters and the
    underscore. *)
Definition word_char (c : ascii) : bool :=
  ascii_letter c || ascii_digit c || (code c =? 95)
  || (code c =? 170) || between 178 179 c || (code c =? 181)
  || between 185 186 c || between 188 190 c
  || between 192 214 c || between 216 246 c || between 248 255 c.

(** [str.lower] on one character. *)
Definition lower_char (c : ascii) : ascii :=
  if between 65 90 c || between 192 214 c || between 216 222 c
  then ascii_of_nat (code c + 32) else c.

Definition lower (s : str) : str := map lower_char s.

Fixpoint lstrip (s : str) : str :=
  match s with
  | c :: s' => if is_space c then lstrip s' else s
  | [] => []
  end.

Definition rstrip (s : str) : str := rev (lstrip (rev s)).

(** [s.strip()] *)
Definition strip (s : str) : str := rstrip (lstrip s).

(** [sep.join(parts)] *)
Fixpoint join (sep : str) (parts : list str) : str :=
  match parts with
  | [] => []
  | [p] => p
  | p :: rest => p ++ sep ++ join sep rest
  end.

(** Is [p] an initial segment of [s], characters compared with [eqc]. *)
Fixpoint starts_with (eqc : ascii → ascii → bool) (p s : str) : bool :=
  match p, s with
  | [], _ => true
  | a :: p', b :: s' => eqc a b && starts_with eqc p' s'
  | _ :: _, [] => false
  end.

Definition same_char (a b : ascii) : bool := bool_decide (a = b).

Definition same_char_nocase (a b : ascii) : bool :=
  bool_decide (lower_char a = lower_char b).

(** [sub in s] *)
Fixpoint contains (sub s : str) : bool :=
  starts_with same_char sub s ||
  match s with
  | [] => false
  | _ :: s' => contains sub s'
  end.

(** [len(s.split())]: the number of maximal runs of characters that are
    not white space.  [inside] tells whether the previous character
    belonged to such a run. *)
Fixpoint count_words (inside : bool) (s : str) : nat :=
  match s with
  | [] => 0
  | c :: s' =>
      if is_space c then count_words false s'
      else if inside then count_words true s'
      else S (count_words true s')
  end.

Definition word_count (s : str) : nat := count_words false s.

(** Python truthiness of a list or a string. *)
Definition truthy {A} (l : list A) : bool :=
  match l with [] => false | _ :: _ => true end.

(** ** Regular expressions

    The module uses three kinds of pattern: the sentence terminator run
    [[.!?]+], the word pattern [\b[a-zA-Z]{4,}\b], and literal cue
    phrases (with [\.] for a literal dot).  The matching of this
    fragment of Python's pattern language is defined here, by
    [match_at] and the scans built on it; [in_fragment] reads a source of
    the fragment.  A source outside the fragment is left to the pattern
    library ([ReLibrary] below), which compiles it or rejects it. *)

Inductive regex : Type :=
  | Lit (l : str)      (* a non-empty literal text *)
  | TermRun            (* [.!?]+ *)
  | AlphaWord.         (* \b[a-zA-Z]{4,}\b *)

Global Instance regex_eq_dec : EqDecision regex.
Proof. solve_decision. Defined.

Definition terminator (c : ascii) : bool :=
  bool_decide (c = "."%char) || bool_decide (c = "!"%char)
  || bool_decide (c = "?"%char).

(** Length of the longest initial run of characters satisfying [p]. *)
Fixpoint run_length (p : ascii → bool) (s : str) : nat :=
  match s with
  | c :: s' => if p c then S (run_length p s') else 0
  | [] => 0
  end.

Definition word_char_at (o : option ascii) : bool :=
  match o with Some c => word_char c | None => false end.

(** [match_at ic r prev s]: the length of the match of [r] that starts at
    the beginning of [s], where [prev] is the character before it (for
    [\b]) and [ic] is the flag [re.IGNORECASE].  The quantifiers are
    greedy.  For [AlphaWord] a shorter repetition never succeeds: it
    would end between two letters, where [\b] fails. *)
Definition match_at (ic : bool) (r : regex) (prev : option ascii) (s : str)
  : option nat :=
  match r with
  | Lit l =>
      if starts_with (if ic then same_char_nocase else same_char) l s
      then Some (length l) else None
  | TermRun =>
      match run_length terminator s with
      | 0 => None
      | n => Some n
      end
  | AlphaWord =>
      let n := run_length ascii_letter s in
      if negb (word_char_at prev) && (4 <=? n) && negb (word_char_at (s !! n))
      then Some n else None
  end.

(** [pattern.search(s)] as a truth value. *)
Fixpoint search_from (ic : bool) (r : regex) (prev : option ascii) (s : str)
  : bool :=
  match match_at ic r prev s with
  | Some _ => true
  | None =>
      match s with
      | [] => false
      | c :: s' => search_from ic r (Some c) s'
      end
  end.

(** [pattern.findall(s)]: the matches from left to right, without
    overlap.  [skip] counts the characters of the current match that
    remain to be passed over. *)
Fixpoint findall_from (ic : bool) (r : regex) (prev : option ascii) (s : str)
    (skip : nat) : list str :=
  match s with
  | [] => []
  | c :: s' =>
      match skip with
      | S k => findall_from ic r (Some c) s' k
      | 0 =>
          match match_at ic r prev s with
          | Some (S n) => take (S n) s :: findall_from ic r (Some c) s' n
          | _ => findall_from ic r (Some c) s' 0
          end
      end
  end.

(** [pattern.split(s)]: the pieces between the matches, the empty pieces
    included.  [cur] holds the current piece, last character first. *)
Fixpoint split_from (ic : bool) (r : regex) (prev : option ascii) (s : str)
    (skip : nat) (cur : str) : list str :=
  match s with
  | [] => [rev cur]
  | c :: s' =>
      match skip with
      | S k => split_from ic r (Some c) s' k cur
      | 0 =>
          match match_at ic r prev s with
          | Some (S n) => rev cur :: split_from ic r (Some c) s' n []
          | _ => split_from ic r (Some c) s' 0 (c :: cur)
          end
      end
  end.

Definition re_search (ic : bool) (r : regex) (s : str) : bool :=
  search_from ic r None s.
Definition re_findall (ic : bool) (r : regex) (s : str) : list str :=
  findall_from ic r None s 0.
Definition re_split (ic : bool) (r : regex) (s : str) : list str :=
  split_from ic r None s 0 [].

(** Characters with a special meaning in a pattern. *)
Definition metachar (c : ascii) : bool :=
  bool_decide (c ∈ lit ".^$*+?{}[]\|()").

(** A literal pattern: ordinary characters stand for themselves, and a
    backslash before a character that is neither an ASCII letter nor a
    digit stands for that character. *)
Fixpoint unescape (p : str) : option str :=
  match p with
  | [] => Some []
  | c :: p' =>
      if bool_decide (c = "\"%char) then
        match p' with
        | e :: p'' =>
            if ascii_letter e || ascii_digit e then None
            else cons e <$> unescape p''
        | [] => None
        end
      else if metachar c then None
      else cons c <$> unescape p'
  end.

Definition TERMINATORS : str := lit "[.!?]+".
Definition WORDS : str := lit "\b[a-zA-Z]{4,}\b".

(** The sources of the fragment, with the pattern each one denotes.
    [None] says that the source lies outside the fragment, not that it
    is malformed. *)
Definition in_fragment (p : str) : option regex :=
  if decide (p = TERMINATORS) then Some TermRun
  else if decide (p = WORDS) then Some AlphaWord
  else match unescape p with
       | Some (c :: l) => Some (Lit (c :: l))
       | _ => None
       end.

(** What a pattern object compiled from a source outside the fragment
    answers to the three methods that the module calls on a pattern
    object: [search] as a truth value, [findall] and [split], as lists
    of strings.  (For a source with capture groups Python's [findall]
    and [split] report the groups as well; the module calls these two
    methods on its own patterns [WORDS] and [TERMINATORS] only.) *)
Record Behaviour : Type := mkBehaviour {
  b_search : str → bool;
  b_findall : str → list str;
  b_split : str → list str;
}.

(** The code of a compiled pattern: a pattern of the fragment, matched
    by the scans above, or the behaviour that the library compiled. *)
Inductive pattern_code : Type :=
  | Fragment (r : regex)
  | Foreign (b : Behaviour).

(** ** Effects

    The module keeps two process-wide variables, [_watsonx_client] and
    [_pattern_cache], talks to the remote service and prints.  A
    computation is a function of the state that returns either a value
    or a raised exception (identified with its message, the [str(e)] of
    the handlers), together with the state it leaves. *)

Inductive result (A : Type) : Type :=
  | Ret (a : A)
  | Raise (msg : str).
Arguments Ret {A} a.
Arguments Raise {A} msg.

Record Credentials : Type := mkCredentials { api_key : str; url : str }.

Record Client : Type :=
  mkClient { client_credentials : Credentials; project_id : option str }.

(** A compiled pattern object: [m_id] is the identity of the object. *)
Record Matcher : Type :=
  mkMatcher { m_id : nat; m_source : str; m_ignorecase : bool; m_code : pattern_code }.

Global Instance Credentials_eq_dec : EqDecision Credentials.
Proof. solve_decision. Defined.
Global Instance Client_eq_dec : EqDecision Client.
Proof. solve_decision. Defined.

(** What the surroundings answer.  [api_client k cr] is the outcome of
    the construction [APIClient(cr)] when [k] constructions were
    attempted before; [Raise] there stands for any exception of the
    [try] block of [get_watsonx_client].  [text_generation k c prompt]
    is the outcome of [c.text_generation.create(...)] followed by the
    selection of [results[0].generated_text], when [k] requests were
    sent before; the fixed model name and decoding parameters are left
    to the surroundings. *)
Record World : Type := mkWorld {
  getenv : str → option str;
  api_client : nat → Credentials → result unit;
  text_generation : nat → Client → str → result str;
}.

Record State : Type := mkState {
  watsonx_client : option Client;      (* _watsonx_client *)
  pattern_cache : gmap str Matcher;    (* _pattern_cache *)
  compiled : nat;                      (* pattern objects created so far *)
  connections : nat;                   (* client constructions attempted *)
  requests : list str;                 (* prompts sent, the latest first *)
  console : list str;                  (* lines printed, the latest first *)
}.

Definition initial_state : State :=
  mkState None ∅ 0 0 [] [].

Definition M (A : Type) : Type := State → result A * State.

Definition ret {A} (a : A) : M A := λ st, (Ret a, st).

Definition raise {A} (msg : str) : M A := λ st, (Raise msg, st).

Definition bind {A B} (c : M A) (k : A → M B) : M B :=
  λ st, match c st with
        | (Ret a, st') => k a st'
        | (Raise msg, st') => (Raise msg, st')
        end.

Notation "'do' x <- c ; k" := (bind c (λ x, k))
  (at level 10, x name, c at level 100, k at level 200,
   format "'[v' 'do'  x  <-  c ; '/' k ']'").
Notation "'do_' c ; k" := (bind c (λ _, k))
  (at level 10, c at level 100, k at level 200,
   format "'[v' 'do_'  c ; '/' k ']'").

(** [try: body except Exception as e: handler(str(e))] *)
Definition try_except {A} (body : M A) (handler : str → M A) : M A :=
  λ st, match body st with
        | (Ret a, st') => (Ret a, st')
        | (Raise msg, st') => handler msg st'
        end.

Fixpoint mapM {A B} (f : A → M B) (l : list A) : M (list B) :=
  match l with
  | [] => ret []
  | x :: l' => do y <- f x; do ys <- mapM f l'; ret (y :: ys)
  end.

Definition print (line : str) : M unit := λ st,
  (Ret (), mkState (watsonx_client st) (pattern_cache st) (compiled st)
             (connections st) (requests st) (line :: console st)).

Definition read_client : M (option Client) := λ st, (Ret (watsonx_client st), st).

Definition write_client (c : option Client) : M unit := λ st,
  (Ret (), mkState c (pattern_cache st) (compiled st)
             (connections st) (requests st) (console st)).

(** ** Remote client *)

Section Engine.

Variable W : World.

Definition os_getenv (name fallback : str) : M str :=
  ret (default fallback (getenv W name)).

(** [APIClient(credentials)] *)
Definition APIClient (cr : Credentials) : M Client := λ st,
  let st' := mkState (watsonx_client st) (pattern_cache st) (compiled st)
               (S (connections st)) (requests st) (console st) in
  match api_client W (connections st) cr with
  | Ret _ => (Ret (mkClient cr None), st')
  | Raise msg => (Raise msg, st')
  end.

(** [client.text_generation.create(..., inputs=[prompt]).results[0].generated_text] *)
Definition text_generation_create (c : Client) (prompt : str) : M str := λ st,
  (text_generation W (length (requests st)) c prompt,
   mkState (watsonx_client st) (pattern_cache st) (compiled st)
     (connections st) (prompt :: requests st) (console st)).

Definition get_watsonx_client : M (option Client) :=
  do client <- read_client;
  do_ (if client is None then
         try_except
           (do api_key <- os_getenv (lit "WATSONX_API_KEY") (lit "your-api-key-here");
            do url <- os_getenv (lit "WATSONX_URL") (lit "https://us-south.ml.cloud.ibm.com");
            do project_id <- os_getenv (lit "WATSONX_PROJECT_ID") (lit "your-project-id-here");
            let credentials := mkCredentials api_key url in
            do c <- APIClient credentials;
            do_ write_client (Some c);
            write_client (Some (mkClient (client_credentials c) (Some project_id))))
           (λ e,
            do_ print (lit "Error initializing Watsonx client: " ++ e);
            write_client None)
       else ret ());
  read_client.

End Engine.

(** ** Pattern library

    [re_compile_foreign p] is the outcome of
    [re.compile(p, re.IGNORECASE)] for a source [p] outside the fragment:
    the behaviour of the pattern object, or the exception raised, with
    the message that the library gives it ([re.error] for a malformed
    source).  Everything below holds for every such library. *)
Class ReLibrary : Type := re_compile_foreign : str → result Behaviour.

(** The behaviour of [c+] under [re.IGNORECASE], for a character [c]:
    the matches are the maximal runs of characters equal to [c] up to
    letter case. *)
Definition plus_behaviour (c : ascii) : Behaviour :=
  let same := same_char_nocase c in
  mkBehaviour
    (λ s, existsb same s)
    (fix runs (s : str) : list str :=
       match s with
       | [] => []
       | x :: s' =>
           if same x then
             match s' with
             | y :: _ =>
                 if same y then
                   match runs s' with
                   | run :: rest => (x :: run) :: rest
                   | [] => [[x]]
                   end
                 else [x] :: runs s'
             | [] => [[x]]
             end
           else runs s'
       end)
    (fix pieces (s : str) : list str :=
       match s with
       | [] => [[]]
       | x :: s' =>
           if same x then
             match s' with
             | y :: _ => if same y then pieces s' else [] :: pieces s'
             | [] => [[]; []]
             end
           else
             match pieces s' with
             | piece :: rest => (x :: piece) :: rest
             | [] => [[x]]
             end
       end).

(** A library for the examples at the end.  Of the sources outside the
    fragment the examples pass it two, for which it answers as Python's
    library does: [a+] compiles, and [(] is malformed.  It rejects the
    others, which no example passes. *)
Definition sample_library : ReLibrary := λ p,
  if decide (p = lit "a+") then Ret (plus_behaviour "a")
  else if decide (p = lit "(") then
    Raise (lit "missing ), unterminated subpattern at position 0")
  else Raise (lit "bad pattern").

Section Library.

Context {library : ReLibrary}.

(** ** Pattern cache *)

(** [re.compile(p, re.IGNORECASE)] as a function of the source. *)
Definition re_compile (p : str) : result pattern_code :=
  match in_fragment p with
  | Some r => Ret (Fragment r)
  | None =>
      match re_compile_foreign p with
      | Ret b => Ret (Foreign b)
      | Raise msg => Raise msg
      end
  end.

(** [re.compile(pattern, re.IGNORECASE)] creates a new object, or raises
    the library's exception. *)
Definition re_compile_ignorecase (pattern : str) : M Matcher := λ st,
  match re_compile pattern with
  | Ret pc =>
      (Ret (mkMatcher (compiled st) pattern true pc),
       mkState (watsonx_client st) (pattern_cache st) (S (compiled st))
         (connections st) (requests st) (console st))
  | Raise msg => (Raise msg, st)
  end.

Definition cache_store (pattern : str) (m : Matcher) : M unit := λ st,
  (Ret (), mkState (watsonx_client st) (<[pattern := m]> (pattern_cache st))
             (compiled st) (connections st) (requests st) (console st)).

Definition cache_lookup (pattern : str) : M (option Matcher) := λ st,
  (Ret (pattern_cache st !! pattern), st).

Definition get_cached_pattern (pattern : str) : M Matcher :=
  do hit <- cache_lookup pattern;
  do_ (if hit is None then
         do m <- re_compile_ignorecase pattern;
         cache_store pattern m
       else ret ());
  do found <- cache_lookup pattern;
  match found with
  | Some m => ret m
  | None => raise (lit "KeyError")
  end.

Definition Matcher_split (m : Matcher) (s : str) : list str :=
  match m_code m with
  | Fragment r => re_split (m_ignorecase m) r s
  | Foreign b => b_split b s
  end.
Definition Matcher_findall (m : Matcher) (s : str) : list str :=
  match m_code m with
  | Fragment r => re_findall (m_ignorecase m) r s
  | Foreign b => b_findall b s
  end.
Definition Matcher_search (m : Matcher) (s : str) : bool :=
  match m_code m with
  | Fragment r => re_search (m_ignorecase m) r s
  | Foreign b => b_search b s
  end.

(** ** Term extractor *)

Definition KEY_STOP_WORDS : list str := map lit
  ["this"; "that"; "these"; "those"; "which"; "what"; "when"; "where";
   "who"; "why"; "how"; "with"; "from"; "have"; "has"; "been"; "were";
   "are"; "and"; "the"; "for"; "not"; "but"; "their"; "will"; "would";
   "should"; "could"; "about"; "into"; "through"; "during"; "before";
   "after"; "above"; "below"; "upon"; "under"; "while"; "until"; "then";
   "than"; "also"; "more"; "less"; "most"; "least"].

(** [collections.Counter]: a dictionary from elements to counts that
    keeps the order of first insertion. *)
Fixpoint counter_add (w : str) (c : list (str * nat)) : list (str * nat) :=
  match c with
  | [] => [(w, 1)]
  | (k, n) :: c' =>
      if decide (k = w) then (k, S n) :: c' else (k, n) :: counter_add w c'
  end.

Definition Counter (ws : list str) : list (str * nat) :=
  foldl (λ c w, counter_add w c) [] ws.

(** [sorted(items, key=count, reverse=True)]: a stable sort, elements of
    equal count keep their order. *)
Fixpoint insert_by_count (x : str * nat) (l : list (str * nat))
  : list (str * nat) :=
  match l with
  | [] => [x]
  | y :: l' => if x.2 <? y.2 then y :: insert_by_count x l' else x :: y :: l'
  end.

Definition sort_by_count (l : list (str * nat)) : list (str * nat) :=
  foldr insert_by_count [] l.

(** [Counter.most_common(n)]: the [n] largest counts, "elements with
    equal counts are ordered in the order first encountered". *)
Definition most_common (n : nat) (c : list (str * nat)) : list (str * nat) :=
  take n (sort_by_count c).

Definition extract_key_terms (text : str) : list str :=
  let words := re_findall false AlphaWord (lower text) in
  let filtered_words := filter (λ word, word ∉ KEY_STOP_WORDS) words in
  map fst (most_common 10 (Counter filtered_words)).

(** ** Sentence selector *)

Definition QUESTION_STOP_WORDS : list str := map lit
  ["what"; "when"; "where"; "who"; "why"; "how"; "does"; "could"; "would";
   "should"].

(** The scan of [extract_relevant_sentences], which leaves the loop when
    eight sentences are collected. *)
Fixpoint scan_relevant (question_terms : list str) (sentences : list str)
    (relevant_sentences : list str) : list str :=
  match sentences with
  | [] => relevant_sentences
  | sentence :: rest =>
      let sentence := strip sentence in
      if 30 <? length sentence then
        let sentence_lower := lower sentence in
        if existsb (λ term, contains term sentence_lower) question_terms then
          let relevant_sentences := relevant_sentences ++ [sentence] in
          if 8 <=? length relevant_sentences then relevant_sentences
          else scan_relevant question_terms rest relevant_sentences
        else scan_relevant question_terms rest relevant_sentences
      else scan_relevant question_terms rest relevant_sentences
  end.

(** [[s.strip() for s in sentences if len(s.strip()) > n]] *)
Definition substantial (n : nat) (sentences : list str) : list str :=
  map strip (filter (λ s, n < length (strip s)) sentences).

(** The search terms of a question, given the matches of the word
    pattern in the lower-cased question: a set, without the stop words. *)
Definition search_terms (found : list str) : list str :=
  filter (λ term, term ∉ QUESTION_STOP_WORDS) (remove_dups found).

Definition extract_relevant_sentences (context question : str) : M (list str) :=
  do sentence_splitter <- get_cached_pattern TERMINATORS;
  do word_pattern <- get_cached_pattern WORDS;
  let sentences := Matcher_split sentence_splitter context in
  let question_terms := search_terms (Matcher_findall word_pattern (lower question)) in
  let relevant_sentences := scan_relevant question_terms sentences [] in
  let relevant_sentences :=
    if truthy relevant_sentences then relevant_sentences
    else take 6 (substantial 40 sentences) in
  ret (take 6 relevant_sentences).

(** ** Definition and example extractors *)

Definition definition_patterns : list str := map lit
  ["is defined as"; "refers to"; "means that"; "is called";
   "known as"; "can be defined"; "is essentially"; "is described as"].

Definition example_patterns : list str := map lit
  ["for example"; "such as"; "for instance"; "including";
   "like"; "e\.g\."; "as in"; "case study"].

(** The loop shared by [extract_definitions] and [extract_examples]: a
    sentence longer than [min_len] is appended when one of the patterns
    is found in it (the inner loop stops at the first one), and the loop
    is left when [cap] sentences are collected. *)
Fixpoint scan_cues (min_len cap : nat) (compiled_patterns : list Matcher)
    (sentences : list str) (found : list str) : list str :=
  match sentences with
  | [] => found
  | sentence :: rest =>
      let sentence := strip sentence in
      if min_len <? length sentence then
        let found :=
          if existsb (λ pattern, Matcher_search pattern sentence) compiled_patterns
          then found ++ [sentence] else found in
        if cap <=? length found then found
        else scan_cues min_len cap compiled_patterns rest found
      else scan_cues min_len cap compiled_patterns rest found
  end.

Definition extract_definitions (context : str) : M (list str) :=
  let sentences := re_split false TermRun context in
  do compiled_patterns <- mapM get_cached_pattern definition_patterns;
  ret (scan_cues 20 3 compiled_patterns sentences []).

Definition extract_examples (context : str) : M (list str) :=
  let sentences := re_split false TermRun context in
  do compiled_patterns <- mapM get_cached_pattern example_patterns;
  ret (scan_cues 30 2 compiled_patterns sentences []).

(** ** Answer composers *)

Definition dquote : ascii := ascii_of_nat 34.
Definition nl : str := [ascii_of_nat 10].

(** [str(i)] for a number. *)
Definition num (i : nat) : str := lit (pretty i).

(** [', '.join(terms) if key_terms else alt] *)
Definition joined_or (key_terms terms : list str) (alt : str) : str :=
  if truthy key_terms then join (lit ", ") terms else alt.

(** [[f(i, x) for i, x in enumerate(l, 1)]] *)
Definition enumerate1 {A B} (f : nat → A → B) (l : list A) : list B :=
  imap (λ i x, f (S i) x) l.

Definition format_key_topics (context : str) : str :=
  let sentences := re_split false TermRun context in
  let substantial_sentences := take 4 (substantial 50 sentences) in
  join nl (enumerate1 (λ i sentence, num i ++ lit ". **" ++ sentence ++ lit "**")
             substantial_sentences).

Definition generate_comprehensive_fallback (context question : str)
    (key_terms : list str) : str :=
  let formatted_topics := format_key_topics context in
  lit "# 📚 Comprehensive Analysis: " ++ question ++ lit "

## 🔍 Overview of Your Study Material:

The content primarily focuses on **" ++ joined_or key_terms (take 3 key_terms) (lit "key concepts") ++ lit "**. While I couldn't find direct information about " ++ [dquote] ++ question ++ [dquote] ++ lit ", here's what the material covers:

## 📖 Main Topics Discussed:

" ++ formatted_topics ++ lit "

## 🎯 Suggested Study Approach:

1. **Review foundational concepts** related to the main topics
2. **Look for connections** between different concepts
3. **Examine practical applications** mentioned
4. **Note definitions and terminology** used

## 💡 Potential Related Questions:

- How does " ++ question ++ lit " relate to the main concepts?
- What applications might " ++ question ++ lit " have in this context?

## 📝 Recommendation:

Review sections discussing related concepts for indirect references to " ++ [dquote] ++ question ++ [dquote] ++ lit ".".

Definition generate_additional_insights (context question : str) : str :=
  let key_terms := take 3 (extract_key_terms context) in
  lit "

## 🔍 Additional Insights:

Based on the context, consider these points:

- The material emphasizes practical applications
- Key terminology suggests fundamental concepts
- Content builds on previous knowledge

## 📚 Recommended Next Steps:

1. Create flashcards for: " ++ joined_or key_terms key_terms (lit "key terms") ++ lit "
2. Summarize main sections
3. Identify conceptual connections
4. Practice explaining concepts".

(** The assembly of [generate_detailed_answer] once the extractions are
    made. *)
Definition assemble_answer (context question : str)
    (key_terms relevant_sentences definitions examples : list str) : str :=
  let answer_parts := [
    lit "# 📚 Comprehensive Analysis: " ++ question ++ lit "

## 🔍 Key Findings from Your Study Material:

"] in
  let answer_parts := answer_parts ++
    enumerate1 (λ i sentence, lit "**" ++ num i ++ lit ". " ++ sentence ++ lit "**" ++ nl ++ nl)
      (take 6 relevant_sentences) in
  let answer_parts :=
    if truthy definitions then
      (answer_parts ++ [nl ++ lit "## 📖 Important Definitions:" ++ nl ++ nl]) ++
      enumerate1 (λ i definition, lit "**Definition " ++ num i ++ lit ":** " ++ definition ++ nl ++ nl)
        (take 3 definitions)
    else answer_parts in
  let answer_parts :=
    if truthy examples then
      (answer_parts ++ [nl ++ lit "## 💡 Practical Examples:" ++ nl ++ nl]) ++
      enumerate1 (λ i example, lit "**Example " ++ num i ++ lit ":** " ++ example ++ nl ++ nl)
        (take 2 examples)
    else answer_parts in
  let answer_parts :=
    if truthy key_terms then
      answer_parts ++
      [lit "
## 🎯 Key Related Concepts:

";
       join (lit ", ") (map (λ term, lit "**" ++ term ++ lit "**") (take 5 key_terms));
       nl ++ nl]
    else answer_parts in
  let answer_parts := answer_parts ++ [
    lit "
## 📝 Study Recommendations:

1. **Focus on understanding** the relationships between " ++ joined_or key_terms (take 2 key_terms) (lit "these concepts") ++ lit "
2. **Review the definitions** and how they apply to different contexts
3. **Practice with examples** to reinforce your understanding
4. **Connect these concepts** to broader topics in your field

## 💭 Further Exploration:

For deeper understanding, consider researching how these concepts relate to real-world applications."] in
  let answer := concat answer_parts in
  if word_count answer <? 150
  then answer ++ generate_additional_insights context question
  else answer.

Definition generate_detailed_answer (context question : str) : M str :=
  let key_terms := extract_key_terms context in
  do relevant_sentences <- extract_relevant_sentences context question;
  if negb (truthy relevant_sentences) then
    ret (generate_comprehensive_fallback context question key_terms)
  else
    do definitions <-
      (if length relevant_sentences <? 6 then extract_definitions context
       else ret []);
    do examples <-
      (if length relevant_sentences <? 8 then extract_examples context
       else ret []);
    ret (assemble_answer context question key_terms relevant_sentences
           definitions examples).

(** ** Remote adapter *)

Definition format_watsonx_answer (answer_text question : str) : str :=
  lit "# 📚 Comprehensive Analysis: " ++ question ++ lit "

## 🔍 Answer from Your Study Material:

" ++ answer_text ++ lit "

## 💡 Study Tips:

• **Review key concepts** mentioned in the answer
• **Create flashcards** for important terms
• **Practice explaining** these concepts in your own words
• **Connect this information** to what you already know

*Generated using IBM Watsonx with Mixtral-8x7B-Instruct model*".

Definition make_prompt (context question : str) : str :=
  lit "<|system|>
You are an academic assistant helping students understand their study materials.
Based strictly on the provided context, answer the question comprehensively.
Provide detailed explanations, definitions, and examples when relevant.
If the context doesn't contain enough information, say so clearly.

Context from study materials:
" ++ context ++ lit "
</s>
<|user|>
" ++ question ++ lit "
</s>
<|assistant|>".

Section Orchestrator.

Variable W : World.

Definition generate_watsonx_answer (context question : str) : M (option str) :=
  do client <- get_watsonx_client W;
  match client with
  | None => ret None
  | Some client =>
      let prompt := make_prompt context question in
      try_except
        (do generated_text <- text_generation_create W client prompt;
         ret (Some (format_watsonx_answer generated_text question)))
        (λ e,
         do_ print (lit "Watsonx API error: " ++ e);
         ret None)
  end.

Definition INSUFFICIENT_TEXT : str :=
  lit "I couldn't extract enough text from the PDF to answer your question. Please try with a different PDF or ensure the document contains readable text.".

(** Truthiness of the adapter's answer: [None] and the empty string are
    false. *)
Definition usable (a : option str) : bool :=
  match a with Some s => truthy s | None => false end.

(** The body of the [try] statement of [generate_answer].  The two
    functions that [generate_answer] looks up in the module at the time of
    the call are parameters: [remote] stands for
    [generate_watsonx_answer] and [composer] for
    [generate_detailed_answer]. *)
Definition answer_path
    (remote : str → str → M (option str)) (composer : str → str → M str)
    (context question : str) : M str :=
  do watsonx_answer <- remote context question;
  if usable watsonx_answer then ret (default [] watsonx_answer)
  else composer context question.

Definition generate_answer_with
    (remote : str → str → M (option str)) (composer : str → str → M str)
    (context_chunks : list str) (question : str) : M str :=
  let context := join nl (take 3 context_chunks) in
  if negb (truthy context) || (length (strip context) <? 50) then
    ret INSUFFICIENT_TEXT
  else
    try_except
      (answer_path remote composer context question)
      (λ e, ret (lit "Error processing your question: " ++ e)).

Definition generate_answer : list str → str → M str :=
  generate_answer_with generate_watsonx_answer generate_detailed_answer.

End Orchestrator.

(** ** Specification vocabulary *)

(** Every cached object is the compilation of its key with
    [re.IGNORECASE]. *)
Definition entry_ok (pattern : str) (m : Matcher) : Prop :=
  re_compile pattern = Ret (m_code m) ∧ m_ignorecase m = true.

Definition cache_ok (st : State) : Prop :=
  map_Forall entry_ok (pattern_cache st).

(** [yields c P]: from a state with a sound cache, [c] returns a value
    satisfying [P], raises nothing, and leaves a sound cache. *)
Definition yields {A} (c : M A) (P : A → Prop) : Prop :=
  ∀ st, cache_ok st → ∃ a st', c st = (Ret a, st') ∧ P a ∧ cache_ok st'.

(** [st'] comes after [st]: the entries of the cache are still there, and
    the cache is sound if it was. *)
Definition extends (st st' : State) : Prop :=
  pattern_cache st ⊆ pattern_cache st' ∧ (cache_ok st → cache_ok st').

(** [grows c]: whatever [c] does, returning or raising, the state it
    leaves extends the state it started from. *)
Definition grows {A} (c : M A) : Prop :=
  ∀ st r st', c st = (r, st') → extends st st'.

(** ** Sample surroundings and inputs *)

(** No service can be reached: every construction of a client fails. *)
Definition offline_world : World :=
  mkWorld (λ _, None)
    (λ _ _, Raise (lit "connection refused"))
    (λ _ _ _, Raise (lit "no route to host")).

(** The first construction of a client fails, the later ones succeed. *)
Definition recovering_world : World :=
  mkWorld (λ _, None)
    (λ k _, if k is 0 then Raise (lit "timed out") else Ret ())
    (λ _ _ _, Ret (lit "Generated text.")).

Definition photosynthesis_context : str :=
  lit "Photosynthesis is defined as the process by which plants convert light into energy. For example, sunflowers track the sun.".

Definition photosynthesis_question : str := lit "What is photosynthesis?".

Definition photosynthesis_first : str :=
  lit "Photosynthesis is defined as the process by which plants convert light into energy".

Definition photosynthesis_second : str :=
  lit "For example, sunflowers track the sun".

(** The credentials and the project identifier that [get_watsonx_client]
    reads from the environment, with their placeholders. *)
Definition configured_credentials (W : World) : Credentials :=
  mkCredentials
    (default (lit "your-api-key-here") (getenv W (lit "WATSONX_API_KEY")))
    (default (lit "https://us-south.ml.cloud.ibm.com") (getenv W (lit "WATSONX_URL"))).

Definition configured_client (W : World) : Client :=
  mkClient (configured_credentials W)
    (Some (default (lit "your-project-id-here") (getenv W (lit "WATSONX_PROJECT_ID")))).

(** The state after one call of the client getter in [recovering_world]. *)
Definition after_failed_init : State :=
  (get_watsonx_client recovering_world initial_state).2.

(** The calls that a client of the module can make, and their effect on
    the process state. *)
Inductive operation : Type :=
  | CallGetCachedPattern (pattern : str)
  | CallGetWatsonxClient
  | CallExtractRelevantSentences (context question : str)
  | CallExtractDefinitions (context : str)
  | CallExtractExamples (context : str)
  | CallGenerateDetailedAnswer (context question : str)
  | CallGenerateWatsonxAnswer (context question : str)
  | CallGenerateAnswer (context_chunks : list str) (question : str).

Definition run (W : World) (o : operation) (st : State) : State :=
  match o with
  | CallGetCachedPattern pattern => (get_cached_pattern pattern st).2
  | CallGetWatsonxClient => (get_watsonx_client W st).2
  | CallExtractRelevantSentences context question =>
      (extract_relevant_sentences context question st).2
  | CallExtractDefinitions context => (extract_definitions context st).2
  | CallExtractExamples context => (extract_examples context st).2
  | CallGenerateDetailedAnswer context question =>
      (generate_detailed_answer context question st).2
  | CallGenerateWatsonxAnswer context question =>
      (generate_watsonx_answer W context question st).2
  | CallGenerateAnswer context_chunks question =>
      (generate_answer W context_chunks question st).2
  end.

Definition run_all (W : World) (ops : list operation) (st : State) : State :=
  foldl (λ st o, run W o st) st ops.

(** The sentences of a context in document order, trimmed. *)
Definition sentences_of (context : str) : list str :=
  map strip (re_split false TermRun context).

(** The search terms of a question. *)
Definition question_terms_of (question : str) : list str :=
  search_terms (re_findall false AlphaWord (lower question)).

(** A sentence mentions a term when its lower-cased text contains it. *)
Definition mentions (terms : list str) (sentence : str) : bool :=
  existsb (λ term, contains term (lower sentence)) terms.

(** A trimmed sentence that the matching path selects. *)
Definition relevant (terms : list str) (sentence : str) : Prop :=
  30 < length sentence ∧ mentions terms sentence = true.

Global Instance relevant_dec terms sentence : Decision (relevant terms sentence).
Proof. unfold relevant. apply _. Defined.

(** The value of [extract_relevant_sentences]. *)
Definition relevant_sentences_of (context question : str) : list str :=
  let matching :=
    filter (relevant (question_terms_of question)) (sentences_of context) in
  take 6 (if truthy matching then take 8 matching
          else take 6 (filter (λ s, 40 < length s) (sentences_of context))).

(** The cue phrases, as the text they match. *)
Definition definition_cues : list str := map lit
  ["is defined as"; "refers to"; "means that"; "is called";
   "known as"; "can be defined"; "is essentially"; "is described as"].

Definition example_cues : list str := map lit
  ["for example"; "such as"; "for instance"; "including";
   "like"; "e.g."; "as in"; "case study"].

(** A sentence contains one of the cue phrases, letter case ignored. *)
Definition has_cue (cues : list str) (sentence : str) : bool :=
  existsb (λ cue, contains (lower cue) (lower sentence)) cues.

Definition cued (min_len : nat) (cues : list str) (sentence : str) : Prop :=
  min_len < length sentence ∧ has_cue cues sentence = true.

Global Instance cued_dec min_len cues sentence :
  Decision (cued min_len cues sentence).
Proof. unfold cued. apply _. Defined.

(** A trimmed sentence that a list of compiled patterns selects. *)
Definition found_by (min_len : nat) (ms : list Matcher) (sentence : str) : Prop :=
  min_len < length sentence
  ∧ existsb (λ pattern, Matcher_search pattern sentence) ms = true.

Global Instance found_by_dec min_len ms sentence :
  Decision (found_by min_len ms sentence).
Proof. unfold found_by. apply _. Defined.

(** The value of the definition and example extractors for the cue
    phrases [cues], the length bound [min_len] and the cap [cap]. *)
Definition cue_sentences (min_len cap : nat) (cues : list str) (context : str)
  : list str :=
  take cap (filter (cued min_len cues) (sentences_of context)).

(** The value of [generate_detailed_answer]. *)
Definition detailed_answer_of (context question : str) : str :=
  let key_terms := extract_key_terms context in
  let relevant_sentences := relevant_sentences_of context question in
  if negb (truthy relevant_sentences) then
    generate_comprehensive_fallback context question key_terms
  else
    assemble_answer context question key_terms relevant_sentences
      (if length relevant_sentences <? 6
       then cue_sentences 20 3 definition_cues context else [])
      (if length relevant_sentences <? 8
       then cue_sentences 30 2 example_cues context else []).

(** The state after the remote adapter was tried once in
    [offline_world]. *)
Definition after_offline_attempt : State :=
  (generate_watsonx_answer offline_world
     (join nl (take 3 [photosynthesis_context])) photosynthesis_question
     initial_state).2.

Definition sample_operations : list operation :=
  [CallGetCachedPattern WORDS;
   CallGenerateAnswer [photosynthesis_context] photosynthesis_question;
   CallGetCachedPattern (lit "(");
   CallExtractExamples photosynthesis_context].


Definition first_matcher : Matcher :=
  mkMatcher 0 TERMINATORS true (Fragment TermRun).

Definition after_first_compile : State :=
  (get_cached_pattern TERMINATORS initial_state).2.

(** The tokens that [extract_key_terms] counts: the words of the
    lower-cased text that are not stop words, in the order of the text. *)
Definition key_tokens (text : str) : list str :=
  filter (λ word, word ∉ KEY_STOP_WORDS)
    (re_findall false AlphaWord (lower text)).

(** The number of occurrences of [w] in [ws]. *)
Definition occurrences (w : str) (ws : list str) : nat :=
  length (filter (λ x, x = w) ws).

(** The position of the first occurrence of [w] in [ws]. *)
Fixpoint first_index (w : str) (ws : list str) : nat :=
  match ws with
  | [] => 0
  | x :: ws' => if decide (x = w) then 0 else S (first_index w ws')
  end.

(** [a] ranks before [b]: it is more frequent, or as frequent and first
    met earlier. *)
Definition outranks (ws : list str) (a b : str) : Prop :=
  occurrences b ws < occurrences a ws
  ∨ (occurrences a ws = occurrences b ws
     ∧ first_index a ws < first_index b ws).

(** The count that a counter holds for [k] (0 when it holds none). *)
Fixpoint count_in (c : list (str * nat)) (k : str) : nat :=
  match c with
  | [] => 0
  | (k', n) :: c' => if decide (k' = k) then n else count_in c' k
  end.

(** The order of the entries of a sorted counter, for a position [pos]
    of the keys: larger count first, then smaller position. *)
Definition entry_before (pos : str → nat) (x y : str * nat) : Prop :=
  y.2 < x.2 ∨ (y.2 = x.2 ∧ pos x.1 < pos y.1).

(** ** Vocabulary for the properties of the whole module *)

(** The pattern sources that the module itself passes to
    [get_cached_pattern]. *)
Definition module_patterns : list str :=
  TERMINATORS :: WORDS :: definition_patterns ++ example_patterns.

(** [stable R c]: whatever [c] does, returning or raising, the state it
    leaves is related by [R] to the state it started from. *)
Definition stable (R : State → State → Prop) {A} (c : M A) : Prop :=
  ∀ st r st', c st = (r, st') → R st st'.

(** A call is permitted when it is not a direct call of
    [get_cached_pattern], or is one for an allowed pattern. *)
Definition permitted (allowed : str → Prop) (o : operation) : Prop :=
  match o with
  | CallGetCachedPattern pattern => allowed pattern
  | _ => True
  end.

(** A client that is set stays set and stays the same, and no other is
    constructed. *)
Definition keeps_client (st st' : State) : Prop :=
  ∀ c, watsonx_client st = Some c →
       watsonx_client st' = Some c ∧ connections st' = connections st.




(** Only the pattern cache and its counter changed. *)
Definition same_remote (st st' : State) : Prop :=
  watsonx_client st' = watsonx_client st
  ∧ connections st' = connections st
  ∧ requests st' = requests st
  ∧ console st' = console st.

(** The remote service answers every construction and every request. *)
Definition online_world : World :=
  mkWorld (λ _, None) (λ _ _, Ret ()) (λ _ _ _, Ret (lit "Generated text.")).



(** The pattern source [p] has an entry in the cache of [st]. *)
Definition cached (st : State) (p : str) : Prop :=
  is_Some (pattern_cache st !! p).

(** The computation shared by [extract_definitions] and
    [extract_examples], made optional by the flag [b] as in
    [generate_detailed_answer]. *)
Definition optional_cue_scan (b : bool) (min_len cap : nat)
    (patterns : list str) (context : str) : M (list str) :=
  if b then
    do compiled_patterns <- mapM get_cached_pattern patterns;
    ret (scan_cues min_len cap compiled_patterns
           (re_split false TermRun context) [])
  else ret [].

(** A sentence as the extractors return it: trimmed, not empty, and
    without any sentence terminator. *)
Definition clean_sentence (s : str) : Prop :=
  strip s = s ∧ s ≠ [] ∧ Forall (λ c, terminator c = false) s.

(** The example cue phrases without "e.g.". *)
Definition example_cues_without_eg : list str := map lit
  ["for example"; "such as"; "for instance"; "including";
   "like"; "as in"; "case study"].

(** * Properties *)

(** ** Regular expressions on examples *)

Example split_demo :
  re_split false TermRun (lit "a.b.") = [lit "a"; lit "b"; lit ""]
  ∧ re_split false TermRun (lit "") = [lit ""]
  ∧ re_split false TermRun (lit "..a") = [lit ""; lit "a"].
Proof. by vm_compute. Qed.

Example findall_demo :
  re_findall false AlphaWord (lit "abcd1 abcd_ef word words_ xabcd hello")
  = [lit "word"; lit "xabcd"; lit "hello"].
Proof. by vm_compute. Qed.

Example compile_demo :
  in_fragment (lit "e\.g\.") = Some (Lit (lit "e.g."))
  ∧ in_fragment (lit "is defined as") = Some (Lit (lit "is defined as"))
  ∧ in_fragment (lit "(") = None
  ∧ in_fragment (lit "a+") = None.
Proof. by vm_compute. Qed.

(** ** The pattern cache *)

Lemma cache_ok_initial : cache_ok initial_state.
Proof. apply map_Forall_empty. Qed.

Lemma yields_ret {A} (a : A) (P : A → Prop) : P a → yields (ret a) P.
Proof. intros Ha st Hst. by exists a, st. Qed.

Lemma yields_bind {A B} (c : M A) (k : A → M B) P Q :
  yields c P → (∀ a, P a → yields (k a) Q) → yields (bind c k) Q.
Proof.
  intros Hc Hk st Hst.
  destruct (Hc st Hst) as (a & st1 & Ec & Ha & Hst1).
  destruct (Hk a Ha st1 Hst1) as (b & st2 & Ek & Hb & Hst2).
  exists b, st2. unfold bind. by rewrite Ec.
Qed.

Lemma get_cached_pattern_hit pattern m st :
  pattern_cache st !! pattern = Some m →
  get_cached_pattern pattern st = (Ret m, st).
Proof.
  intros Hm. unfold get_cached_pattern, bind, cache_lookup, ret.
  rewrite Hm. simpl. by rewrite Hm.
Qed.

Lemma get_cached_pattern_miss pattern r st :
  pattern_cache st !! pattern = None → re_compile pattern = Ret r →
  get_cached_pattern pattern st =
    (Ret (mkMatcher (compiled st) pattern true r),
     mkState (watsonx_client st)
       (<[pattern := mkMatcher (compiled st) pattern true r]> (pattern_cache st))
       (S (compiled st)) (connections st) (requests st) (console st)).
Proof.
  intros Hm Hr.
  unfold get_cached_pattern, bind, cache_lookup, re_compile_ignorecase,
    cache_store, ret.
  rewrite Hm, Hr. simpl. by rewrite lookup_insert_eq.
Qed.

Lemma get_cached_pattern_invalid pattern msg st :
  pattern_cache st !! pattern = None → re_compile pattern = Raise msg →
  get_cached_pattern pattern st = (Raise msg, st).
Proof.
  intros Hm Hr.
  unfold get_cached_pattern, bind, cache_lookup, re_compile_ignorecase.
  by rewrite Hm, Hr.
Qed.

Lemma re_compile_fragment pattern r :
  in_fragment pattern = Some r → re_compile pattern = Ret (Fragment r).
Proof. unfold re_compile. by intros ->. Qed.

Lemma yields_get_cached_pattern pattern r :
  in_fragment pattern = Some r →
  yields (get_cached_pattern pattern)
    (λ m, m_code m = Fragment r ∧ m_ignorecase m = true).
Proof.
  intros Hr%re_compile_fragment st Hst.
  destruct (pattern_cache st !! pattern) as [m|] eqn:Hm.
  - exists m, st. rewrite (get_cached_pattern_hit _ _ _ Hm).
    destruct (Hst _ _ Hm) as [Hc Hi]. split_and!; try done. congruence.
  - eexists _, _. rewrite (get_cached_pattern_miss _ _ _ Hm Hr).
    split_and!; try done.
    unfold cache_ok; simpl. by apply map_Forall_insert_2.
Qed.

Lemma yields_mapM_patterns (patterns : list str) (rs : list regex) :
  Forall2 (λ p r, in_fragment p = Some r) patterns rs →
  yields (mapM get_cached_pattern patterns)
    (λ ms, map m_code ms = map Fragment rs
           ∧ Forall (λ m, m_ignorecase m = true) ms).
Proof.
  induction 1 as [|p r ps rs' Hp _ IH]; simpl.
  - by apply yields_ret.
  - eapply yields_bind; [by apply yields_get_cached_pattern|].
    intros m [Hm Hi]. eapply yields_bind; [exact IH|].
    intros ms [Hms His]. apply yields_ret. simpl. split.
    + by rewrite Hm, Hms.
    + by constructor.
Qed.

Lemma extends_refl st : extends st st.
Proof. by split. Qed.

Lemma extends_trans st1 st2 st3 :
  extends st1 st2 → extends st2 st3 → extends st1 st3.
Proof. intros [H1 K1] [H2 K2]. split; [by etrans|auto]. Qed.

Lemma extends_same_cache st st' :
  pattern_cache st' = pattern_cache st → extends st st'.
Proof. intros H. unfold extends, cache_ok. by rewrite H. Qed.

Lemma grows_ret {A} (a : A) : grows (ret a).
Proof. intros st r st' [= _ <-]. apply extends_refl. Qed.

Lemma grows_raise {A} msg : grows (@raise A msg).
Proof. intros st r st' [= _ <-]. apply extends_refl. Qed.

Lemma grows_bind {A B} (c : M A) (k : A → M B) :
  grows c → (∀ a, grows (k a)) → grows (bind c k).
Proof.
  intros Hc Hk st r st'. unfold bind.
  destruct (c st) as [[a|msg] st1] eqn:Ec.
  - intros Ek. eapply extends_trans; [by eapply Hc | by eapply Hk].
  - intros [= _ <-]. by eapply Hc.
Qed.

Lemma grows_try_except {A} (body : M A) (handler : str → M A) :
  grows body → (∀ e, grows (handler e)) → grows (try_except body handler).
Proof.
  intros Hb Hh st r st'. unfold try_except.
  destruct (body st) as [[a|msg] st1] eqn:Eb.
  - intros [= _ <-]. by eapply Hb.
  - intros Eh. eapply extends_trans; [by eapply Hb | by eapply Hh].
Qed.

Lemma grows_mapM {A B} (f : A → M B) (l : list A) :
  (∀ x, grows (f x)) → grows (mapM f l).
Proof.
  intros Hf. induction l as [|x l IH]; simpl.
  - apply grows_ret.
  - apply grows_bind; [done|]. intros y.
    apply grows_bind; [done|]. intros ys. apply grows_ret.
Qed.

Lemma grows_get_cached_pattern pattern : grows (get_cached_pattern pattern).
Proof.
  intros st r st' E.
  destruct (pattern_cache st !! pattern) as [m|] eqn:Hm.
  - rewrite (get_cached_pattern_hit _ _ _ Hm) in E.
    injection E as _ <-. apply extends_refl.
  - destruct (re_compile pattern) as [rx|msg] eqn:Hr.
    + rewrite (get_cached_pattern_miss _ _ _ Hm Hr) in E.
      injection E as _ <-. split; simpl.
      * by apply insert_subseteq.
      * intros Hst. unfold cache_ok; simpl. by apply map_Forall_insert_2.
    + rewrite (get_cached_pattern_invalid _ _ _ Hm Hr) in E.
      injection E as _ <-. apply extends_refl.
Qed.

(** ** The orchestrator *)

(** C1.  When the first three chunks, joined with newlines, are empty or
    have fewer than 50 characters once trimmed, [generate_answer]
    returns the fixed insufficient-text message whatever the question
    is, and the state is left as it was: neither the remote adapter nor
    the local composer (whatever they are) is run. *)
Theorem generate_answer_insufficient_text
    (W : World) (remote : str → str → M (option str))
    (composer : str → str → M str)
    (context_chunks : list str) (question : str) (st : State) :
  join nl (take 3 context_chunks) = []
  ∨ length (strip (join nl (take 3 context_chunks))) < 50 →
  generate_answer_with remote composer context_chunks question st =
    (Ret (lit "I couldn't extract enough text from the PDF to answer your question. Please try with a different PDF or ensure the document contains readable text."), st)
  ∧ generate_answer W context_chunks question st =
    (Ret (lit "I couldn't extract enough text from the PDF to answer your question. Please try with a different PDF or ensure the document contains readable text."), st).
Proof.
  intros Hshort.
  assert (negb (truthy (join nl (take 3 context_chunks)))
          || (length (strip (join nl (take 3 context_chunks))) <? 50) = true)
    as Hgate.
  { destruct Hshort as [-> | Hlt]; [done|].
    apply orb_true_iff. right. by apply Nat.ltb_lt. }
  unfold generate_answer, generate_answer_with. by rewrite Hgate.
Qed.

(** C2.  [generate_answer] never raises: it returns a string from every
    input and every state, whatever the remote adapter and the composer
    do.  When the context is long enough and the remote-then-local path
    raises an exception with message [msg], the answer is
    "Error processing your question: " followed by [msg]. *)
Theorem generate_answer_never_raises
    (remote : str → str → M (option str)) (composer : str → str → M str)
    (context_chunks : list str) (question : str) (st : State) :
  (∃ answer st',
     generate_answer_with remote composer context_chunks question st =
       (Ret answer, st'))
  ∧ (∀ W, ∃ answer st',
       generate_answer W context_chunks question st = (Ret answer, st'))
  ∧ (∀ msg st',
       join nl (take 3 context_chunks) ≠ [] →
       50 ≤ length (strip (join nl (take 3 context_chunks))) →
       answer_path remote composer (join nl (take 3 context_chunks)) question st =
         (Raise msg, st') →
       generate_answer_with remote composer context_chunks question st =
         (Ret (lit "Error processing your question: " ++ msg), st')).
Proof.
  assert (∀ remote' composer', ∃ answer st',
            generate_answer_with remote' composer' context_chunks question st =
              (Ret answer, st')) as Htotal.
  { intros remote' composer'. unfold generate_answer_with, try_except, ret.
    destruct (negb _ || _); [by eauto|].
    destruct (answer_path _ _ _ _ _) as [[a|msg] st1]; by eauto. }
  split_and!.
  - apply Htotal.
  - intros W. apply Htotal.
  - unfold generate_answer_with, try_except, ret.
    intros msg st' Hne Hlen Hraise.
    destruct (join nl (take 3 context_chunks)) as [|c ctx] eqn:Ectx; [done|].
    simpl truthy. simpl negb. rewrite orb_false_l.
    apply Nat.ltb_ge in Hlen. rewrite Hlen. by rewrite Hraise.
Qed.

(** ** The remote client *)

Lemma get_watsonx_client_set (W : World) (st : State) (c : Client) :
  watsonx_client st = Some c → get_watsonx_client W st = (Ret (Some c), st).
Proof.
  intros Hc. unfold get_watsonx_client, bind, read_client, ret.
  rewrite Hc. simpl. by rewrite Hc.
Qed.

Lemma get_watsonx_client_unset (W : World) (st : State) :
  watsonx_client st = None →
  get_watsonx_client W st =
    match api_client W (connections st) (configured_credentials W) with
    | Ret _ =>
        (Ret (Some (configured_client W)),
         mkState (Some (configured_client W)) (pattern_cache st) (compiled st)
           (S (connections st)) (requests st) (console st))
    | Raise msg =>
        (Ret None,
         mkState None (pattern_cache st) (compiled st) (S (connections st))
           (requests st)
           ((lit "Error initializing Watsonx client: " ++ msg) :: console st))
    end.
Proof.
  intros Hc.
  unfold get_watsonx_client, bind, read_client, try_except, os_getenv, ret,
    APIClient, write_client, print.
  unfold configured_client, configured_credentials.
  rewrite Hc. simpl.
  by destruct (api_client W (connections st) _).
Qed.

(** C7, as the code has it.  A failed initialization leaves the client
    handle unset and is not remembered: every call of the getter made
    while the handle is unset attempts the construction again, and the
    outcome of that attempt decides the result.  A successful
    initialization is cached: later calls return the same client and
    attempt nothing. *)
Theorem get_watsonx_client_caches_success_only (W : World) (st : State) :
  (∀ c, watsonx_client st = Some c →
        get_watsonx_client W st = (Ret (Some c), st))
  ∧ (watsonx_client st = None →
     connections (get_watsonx_client W st).2 = S (connections st)
     ∧ (∀ msg,
          api_client W (connections st) (configured_credentials W) = Raise msg →
          (get_watsonx_client W st).1 = Ret None
          ∧ watsonx_client (get_watsonx_client W st).2 = None)
     ∧ (api_client W (connections st) (configured_credentials W) = Ret () →
        (get_watsonx_client W st).1 = Ret (Some (configured_client W))
        ∧ watsonx_client (get_watsonx_client W st).2 = Some (configured_client W))).
Proof.
  split; [apply get_watsonx_client_set|].
  intros Hc. rewrite (get_watsonx_client_unset W st Hc).
  destruct (api_client W (connections st) (configured_credentials W)) as [[]|msg];
    split_and!; try done; intros; simplify_eq; done.
Qed.

(** C7, as the specification states it, fails: in [recovering_world] the
    first call of the getter fails and leaves the handle unset; the
    second call attempts the construction again and returns a client. *)
Lemma get_watsonx_client_retries_after_failure :
  (get_watsonx_client recovering_world initial_state).1 = Ret None
  ∧ watsonx_client after_failed_init = None
  ∧ connections after_failed_init = 1
  ∧ (get_watsonx_client recovering_world after_failed_init).1 =
      Ret (Some (configured_client recovering_world))
  ∧ connections (get_watsonx_client recovering_world after_failed_init).2 = 2.
Proof. by vm_compute. Qed.

(** ** The pattern cache under the module's operations *)

Lemma grows_same_cache {A} (c : M A) :
  (∀ st, pattern_cache (c st).2 = pattern_cache st) → grows c.
Proof.
  intros H st r st' E. specialize (H st). rewrite E in H.
  by apply extends_same_cache.
Qed.

Lemma grows_print line : grows (print line).
Proof. by apply grows_same_cache. Qed.

Lemma grows_read_client : grows read_client.
Proof. by apply grows_same_cache. Qed.

Lemma grows_write_client c : grows (write_client c).
Proof. by apply grows_same_cache. Qed.

Lemma grows_os_getenv W name fallback : grows (os_getenv W name fallback).
Proof. by apply grows_same_cache. Qed.

Lemma grows_APIClient W cr : grows (APIClient W cr).
Proof.
  apply grows_same_cache. intros st. unfold APIClient.
  by destruct (api_client W (connections st) cr).
Qed.

Lemma grows_text_generation_create W c prompt :
  grows (text_generation_create W c prompt).
Proof. by apply grows_same_cache. Qed.

Lemma grows_if {A} (b : bool) (c1 c2 : M A) :
  grows c1 → grows c2 → grows (if b then c1 else c2).
Proof. by destruct b. Qed.

Create HintDb grows discriminated.
#[local] Hint Resolve grows_ret grows_raise grows_print grows_read_client
  grows_write_client grows_os_getenv grows_APIClient
  grows_text_generation_create grows_get_cached_pattern : grows.

Ltac grows_step :=
  first
    [ solve [auto with grows]
    | apply grows_bind; [|intros ?]
    | apply grows_try_except; [|intros ?]
    | apply grows_mapM; intros ?
    | apply grows_if
    | progress cbv zeta ].

Lemma grows_get_watsonx_client W : grows (get_watsonx_client W).
Proof.
  unfold get_watsonx_client. apply grows_bind; [auto with grows|].
  intros [c|]; repeat grows_step.
Qed.

Lemma grows_extract_relevant_sentences context question :
  grows (extract_relevant_sentences context question).
Proof. unfold extract_relevant_sentences. repeat grows_step. Qed.

Lemma grows_extract_definitions context : grows (extract_definitions context).
Proof. unfold extract_definitions. repeat grows_step. Qed.

Lemma grows_extract_examples context : grows (extract_examples context).
Proof. unfold extract_examples. repeat grows_step. Qed.

#[local] Hint Resolve grows_get_watsonx_client grows_extract_relevant_sentences
  grows_extract_definitions grows_extract_examples : grows.

Lemma grows_generate_detailed_answer context question :
  grows (generate_detailed_answer context question).
Proof. unfold generate_detailed_answer. repeat grows_step. Qed.

Lemma grows_generate_watsonx_answer W context question :
  grows (generate_watsonx_answer W context question).
Proof.
  unfold generate_watsonx_answer. apply grows_bind; [auto with grows|].
  intros [c|]; repeat grows_step.
Qed.

#[local] Hint Resolve grows_generate_detailed_answer
  grows_generate_watsonx_answer : grows.

Lemma grows_generate_answer W context_chunks question :
  grows (generate_answer W context_chunks question).
Proof.
  unfold generate_answer, generate_answer_with, answer_path.
  repeat grows_step.
Qed.

Lemma run_extends W o st : extends st (run W o st).
Proof.
  destruct o; simpl;
    match goal with
    | |- extends st (?c st).2 =>
        destruct (c st) as [r st'] eqn:E; simpl
    end.
  - by eapply grows_get_cached_pattern.
  - by eapply grows_get_watsonx_client.
  - by eapply grows_extract_relevant_sentences.
  - by eapply grows_extract_definitions.
  - by eapply grows_extract_examples.
  - by eapply grows_generate_detailed_answer.
  - by eapply grows_generate_watsonx_answer.
  - by eapply grows_generate_answer.
Qed.

Lemma run_all_extends W ops st : extends st (run_all W ops st).
Proof.
  revert st. induction ops as [|o ops IH]; intros st; simpl;
    [apply extends_refl|].
  eapply extends_trans; [apply (run_extends W o)|apply IH].
Qed.

(** Every state that the module's operations reach from the initial
    state has a sound cache. *)
Lemma reachable_cache_ok W ops : cache_ok (run_all W ops initial_state).
Proof. apply (run_all_extends W ops initial_state), cache_ok_initial. Qed.

Lemma get_cached_pattern_stores pattern m st st1 :
  get_cached_pattern pattern st = (Ret m, st1) →
  pattern_cache st1 !! pattern = Some m.
Proof.
  intros E. destruct (pattern_cache st !! pattern) as [m0|] eqn:Hm.
  - rewrite (get_cached_pattern_hit _ _ _ Hm) in E. by simplify_eq.
  - destruct (re_compile pattern) as [rx|msg] eqn:Hr.
    + rewrite (get_cached_pattern_miss _ _ _ Hm Hr) in E.
      simplify_eq. simpl. by rewrite lookup_insert_eq.
    + rewrite (get_cached_pattern_invalid _ _ _ Hm Hr) in E. by simplify_eq.
Qed.

(** C9.  For every source string, of the module or not: a first call of
    [get_cached_pattern] returns a compiled pattern whenever
    [re.compile] accepts the source, and once a call has returned the
    pattern object [m], every later call for that string, after any
    sequence of calls of the module's operations, returns the same
    object [m] and changes nothing: no pattern is compiled again. *)
Theorem get_cached_pattern_same_instance
    (W : World) (pattern : str) (st : State) (ops : list operation) :
  (∀ pc, re_compile pattern = Ret pc →
         ∃ m st1, get_cached_pattern pattern st = (Ret m, st1))
  ∧ (∀ m st1, get_cached_pattern pattern st = (Ret m, st1) →
       get_cached_pattern pattern (run_all W ops st1) =
         (Ret m, run_all W ops st1)).
Proof.
  split.
  - intros pc Hpc.
    destruct (pattern_cache st !! pattern) as [m|] eqn:Hm.
    + exists m, st. by apply get_cached_pattern_hit.
    + eexists _, _. by apply get_cached_pattern_miss.
  - intros m st1 E. apply get_cached_pattern_hit.
    eapply lookup_weaken; [by eapply get_cached_pattern_stores|].
    apply run_all_extends.
Qed.

(** ** Strings *)

Lemma lstrip_idemp s : lstrip (lstrip s) = lstrip s.
Proof.
  induction s as [|c s IH]; simpl; [done|].
  destruct (is_space c) eqn:E; [done|]. simpl. by rewrite E.
Qed.

Lemma lstrip_snoc c l : is_space c = false → lstrip (l ++ [c]) = lstrip l ++ [c].
Proof.
  intros Hc. induction l as [|x l IH]; simpl; [by rewrite Hc|].
  by destruct (is_space x).
Qed.

Lemma rstrip_cons c s : is_space c = false → rstrip (c :: s) = c :: rstrip s.
Proof.
  intros Hc. unfold rstrip. simpl.
  by rewrite (lstrip_snoc _ _ Hc), rev_app_distr.
Qed.

Lemma rstrip_idemp s : rstrip (rstrip s) = rstrip s.
Proof. unfold rstrip. by rewrite rev_involutive, lstrip_idemp. Qed.

Lemma lstrip_strip s : lstrip (strip s) = strip s.
Proof.
  unfold strip. induction s as [|c s IH]; simpl; [done|].
  destruct (is_space c) eqn:E; [done|].
  rewrite (rstrip_cons _ _ E). simpl. by rewrite E.
Qed.

Lemma strip_idemp s : strip (strip s) = strip s.
Proof.
  unfold strip at 1. rewrite lstrip_strip. unfold strip. apply rstrip_idemp.
Qed.

Lemma starts_with_nocase l s :
  starts_with same_char_nocase l s = starts_with same_char (lower l) (lower s).
Proof.
  revert s. induction l as [|a l IH]; intros [|b s]; simpl; try done.
  by rewrite IH.
Qed.

(** ** Regular expressions *)

Lemma split_from_TermRun ic prev s skip cur :
  split_from ic TermRun prev s skip cur = split_from false TermRun prev s skip cur.
Proof.
  revert prev skip cur. induction s as [|c s IH]; intros prev skip cur; [done|].
  cbn [split_from]. destruct skip as [|k]; [|apply IH].
  change (match_at ic TermRun prev (c :: s))
    with (match_at false TermRun prev (c :: s)).
  destruct (match_at false TermRun prev (c :: s)) as [[|n]|]; by rewrite ?IH.
Qed.

Lemma findall_from_AlphaWord ic prev s skip :
  findall_from ic AlphaWord prev s skip = findall_from false AlphaWord prev s skip.
Proof.
  revert prev skip. induction s as [|c s IH]; intros prev skip; [done|].
  cbn [findall_from]. destruct skip as [|k]; [|apply IH].
  change (match_at ic AlphaWord prev (c :: s))
    with (match_at false AlphaWord prev (c :: s)).
  destruct (match_at false AlphaWord prev (c :: s)) as [[|n]|]; by rewrite ?IH.
Qed.

Lemma search_from_Lit l prev s :
  search_from true (Lit l) prev s = contains (lower l) (lower s).
Proof.
  revert prev. induction s as [|c s IH]; intros prev.
  - cbn. rewrite starts_with_nocase. by destruct (starts_with _ _ _).
  - cbn [search_from match_at lower map contains].
    rewrite starts_with_nocase. cbn [lower map].
    destruct (starts_with same_char (lower l) _); [done|].
    by rewrite IH.
Qed.

Lemma Matcher_split_TermRun m s :
  m_code m = Fragment TermRun → Matcher_split m s = re_split false TermRun s.
Proof.
  intros Hm. unfold Matcher_split, re_split. rewrite Hm.
  apply split_from_TermRun.
Qed.

Lemma Matcher_findall_AlphaWord m s :
  m_code m = Fragment AlphaWord → Matcher_findall m s = re_findall false AlphaWord s.
Proof.
  intros Hm. unfold Matcher_findall, re_findall. rewrite Hm.
  apply findall_from_AlphaWord.
Qed.

Lemma Matcher_search_Lit m cue s :
  m_code m = Fragment (Lit cue) → m_ignorecase m = true →
  Matcher_search m s = contains (lower cue) (lower s).
Proof.
  intros Hm Hi. unfold Matcher_search, re_search. rewrite Hm, Hi.
  apply search_from_Lit.
Qed.

(** ** The scans *)

Lemma substantial_filter n sentences :
  substantial n sentences = filter (λ s, n < length s) (map strip sentences).
Proof.
  unfold substantial. induction sentences as [|x l IH]; [done|].
  cbn [map]. rewrite !filter_cons. case_decide; cbn [map]; by rewrite IH.
Qed.

Lemma take_snoc_full {A} (n : nat) (acc rest : list A) (x : A) :
  length acc < n → n ≤ length (acc ++ [x]) →
  take n (acc ++ x :: rest) = acc ++ [x].
Proof.
  intros Hlt Hge. rewrite length_app in Hge. simpl in Hge.
  rewrite (cons_middle x acc rest), (assoc_L (++)).
  apply take_app_length'. rewrite length_app. simpl. lia.
Qed.

Lemma scan_relevant_spec terms sentences acc :
  length acc < 8 →
  scan_relevant terms sentences acc =
    take 8 (acc ++ filter (relevant terms) (map strip sentences)).
Proof.
  revert acc. induction sentences as [|x l IH]; intros acc Hacc.
  - cbn. rewrite app_nil_r, take_ge; [done|lia].
  - cbn [scan_relevant map]. rewrite filter_cons.
    destruct (decide (relevant terms (strip x))) as [[Hlen Hm]|Hn].
    + apply Nat.ltb_lt in Hlen. rewrite Hlen.
      unfold mentions in Hm. rewrite Hm.
      destruct (8 <=? length (acc ++ [strip x])) eqn:E.
      * apply Nat.leb_le in E. symmetry. by apply take_snoc_full.
      * apply Nat.leb_gt in E. rewrite (IH _ E).
        by rewrite <- app_assoc.
    + destruct (30 <? length (strip x)) eqn:Hlen; [|by apply IH].
      destruct (existsb _ terms) eqn:Hm; [|by apply IH].
      destruct Hn. split; [by apply Nat.ltb_lt|done].
Qed.

Lemma scan_cues_spec min_len cap ms sentences acc :
  length acc < cap →
  scan_cues min_len cap ms sentences acc =
    take cap (acc ++ filter (found_by min_len ms) (map strip sentences)).
Proof.
  revert acc. induction sentences as [|x l IH]; intros acc Hacc.
  - cbn. rewrite app_nil_r, take_ge; [done|lia].
  - cbn [scan_cues map]. rewrite filter_cons.
    destruct (decide (found_by min_len ms (strip x))) as [[Hlen Hm]|Hn].
    + apply Nat.ltb_lt in Hlen. rewrite Hlen, Hm.
      destruct (cap <=? length (acc ++ [strip x])) eqn:E.
      * apply Nat.leb_le in E. symmetry. by apply take_snoc_full.
      * apply Nat.leb_gt in E. rewrite (IH _ E).
        by rewrite <- app_assoc.
    + destruct (min_len <? length (strip x)) eqn:Hlen; [|by apply IH].
      destruct (existsb _ ms) eqn:Hm.
      { destruct Hn. split; [by apply Nat.ltb_lt|done]. }
      apply Nat.leb_gt in Hacc as Hacc'. rewrite Hacc'. by apply IH.
Qed.

(** Once the cap is reached, the sentences that follow play no part. *)
Lemma take_filter_prefix {A} (P : A → Prop) `{∀ x, Decision (P x)}
    (n : nat) (pre post : list A) :
  n ≤ length (filter P pre) →
  take n (filter P (pre ++ post)) = take n (filter P pre).
Proof. intros Hn. rewrite filter_app. by apply take_app_le. Qed.

Lemma search_by_patterns ms cues s :
  map m_code ms = map Fragment (map Lit cues) → Forall (λ m, m_ignorecase m = true) ms →
  existsb (λ pattern, Matcher_search pattern s) ms = has_cue cues s.
Proof.
  revert cues. induction ms as [|m ms IH]; intros [|cue cues] Hr Hi;
    simplify_eq/=; [done|].
  inversion_clear Hi as [|?? Hm Hms].
  unfold has_cue in *. cbn [existsb].
  by rewrite (Matcher_search_Lit m cue s), (IH cues).
Qed.

Lemma found_by_cued min_len ms cues s :
  map m_code ms = map Fragment (map Lit cues) → Forall (λ m, m_ignorecase m = true) ms →
  found_by min_len ms s ↔ cued min_len cues s.
Proof.
  intros Hr Hi. unfold found_by, cued. by rewrite (search_by_patterns ms cues).
Qed.

(** ** The extractors compute their specification *)

Lemma compile_TERMINATORS : in_fragment TERMINATORS = Some TermRun.
Proof. by vm_compute. Qed.

Lemma compile_WORDS : in_fragment WORDS = Some AlphaWord.
Proof. by vm_compute. Qed.

Lemma compile_definition_patterns :
  Forall2 (λ p r, in_fragment p = Some r) definition_patterns
    (map Lit definition_cues).
Proof.
  unfold definition_patterns, definition_cues. cbn [map].
  repeat (constructor; [by vm_compute|]). constructor.
Qed.

Lemma compile_example_patterns :
  Forall2 (λ p r, in_fragment p = Some r) example_patterns
    (map Lit example_cues).
Proof.
  unfold example_patterns, example_cues. cbn [map].
  repeat (constructor; [by vm_compute|]). constructor.
Qed.

Lemma yields_extract_relevant_sentences context question :
  yields (extract_relevant_sentences context question)
    (λ result, result = relevant_sentences_of context question).
Proof.
  unfold extract_relevant_sentences.
  eapply yields_bind; [apply (yields_get_cached_pattern _ _ compile_TERMINATORS)|].
  intros splitter [Hs _].
  eapply yields_bind; [apply (yields_get_cached_pattern _ _ compile_WORDS)|].
  intros words [Hw _]. apply yields_ret. cbv zeta.
  rewrite (Matcher_split_TermRun _ _ Hs), (Matcher_findall_AlphaWord _ _ Hw).
  rewrite scan_relevant_spec by (simpl; lia).
  rewrite substantial_filter. cbn [app].
  unfold relevant_sentences_of, sentences_of, question_terms_of.
  by destruct (filter _ _).
Qed.

Lemma yields_cue_scan min_len cap patterns cues context :
  0 < cap →
  Forall2 (λ p r, in_fragment p = Some r) patterns (map Lit cues) →
  yields
    (do compiled_patterns <- mapM get_cached_pattern patterns;
     ret (scan_cues min_len cap compiled_patterns
            (re_split false TermRun context) []))
    (λ result, result = cue_sentences min_len cap cues context).
Proof.
  intros Hcap Hcompile.
  eapply yields_bind; [by apply yields_mapM_patterns|].
  intros ms [Hr Hi]. apply yields_ret.
  rewrite scan_cues_spec by done. cbn [app].
  unfold cue_sentences, sentences_of. f_equal.
  apply list_filter_iff. intros s. by apply found_by_cued.
Qed.

Lemma yields_extract_definitions context :
  yields (extract_definitions context)
    (λ result, result = cue_sentences 20 3 definition_cues context).
Proof.
  apply yields_cue_scan; [lia|apply compile_definition_patterns].
Qed.

Lemma yields_extract_examples context :
  yields (extract_examples context)
    (λ result, result = cue_sentences 30 2 example_cues context).
Proof.
  apply yields_cue_scan; [lia|apply compile_example_patterns].
Qed.

Lemma sentences_of_trimmed context s : s ∈ sentences_of context → strip s = s.
Proof.
  unfold sentences_of. intros (x & -> & _)%list_elem_of_fmap.
  apply strip_idemp.
Qed.

(** ** The sentence selector *)

Lemma relevant_sentences_trimmed context question s :
  s ∈ relevant_sentences_of context question →
  s ∈ sentences_of context ∧ strip s = s.
Proof.
  intros Hs. assert (s ∈ sentences_of context) as Hin.
  { unfold relevant_sentences_of in Hs. apply subseteq_take in Hs.
    destruct (truthy _); apply subseteq_take in Hs;
      by apply list_elem_of_filter in Hs as [_ ?]. }
  split; [done|by eapply sentences_of_trimmed].
Qed.

(** C4.  From a state with a sound cache, [extract_relevant_sentences]
    returns at most 6 sentences, each of trimmed length above 30.  With
    [matching] the trimmed sentences of the context, in document order,
    that are longer than 30 and mention a question term: when there is
    none, the result is the first 6 (at most) trimmed sentences longer
    than 40, in document order; otherwise the scan collects the first 8
    of [matching] and the result is the first 6 of those.  The scan stops
    at 8: what follows a part of the document that holds 8 matches has
    no influence.  In particular the fallback is taken when no sentence
    mentions a question term. *)
Theorem extract_relevant_sentences_spec
    (context question : str) (st : State) :
  cache_ok st →
  ∃ result st',
    extract_relevant_sentences context question st = (Ret result, st')
    ∧ length result ≤ 6
    ∧ Forall (λ s, 30 < length (strip s)) result
    ∧ match filter (relevant (question_terms_of question))
              (sentences_of context) with
      | [] =>
          result = take 6 (filter (λ s, 40 < length s) (sentences_of context))
          ∧ Forall (λ s, 40 < length (strip s)) result
      | first_match :: more =>
          result = take 6 (take 8 (first_match :: more))
      end
    ∧ scan_relevant (question_terms_of question)
        (re_split false TermRun context) [] =
      take 8 (filter (relevant (question_terms_of question))
                (sentences_of context))
    ∧ (∀ pre post,
         8 ≤ length (filter (relevant (question_terms_of question))
                       (map strip pre)) →
         scan_relevant (question_terms_of question) (pre ++ post) [] =
         scan_relevant (question_terms_of question) pre [])
    ∧ (Forall (λ s, mentions (question_terms_of question) s = false)
         (sentences_of context) →
       filter (relevant (question_terms_of question)) (sentences_of context)
       = []).
Proof.
  intros Hst.
  destruct (yields_extract_relevant_sentences context question st Hst)
    as (result & st' & E & -> & _).
  exists (relevant_sentences_of context question), st'.
  split_and!.
  - done.
  - unfold relevant_sentences_of. rewrite length_take. lia.
  - apply Forall_forall. intros s Hs.
    destruct (relevant_sentences_trimmed _ _ _ Hs) as [_ ->].
    unfold relevant_sentences_of in Hs. apply subseteq_take in Hs.
    destruct (truthy _); apply subseteq_take in Hs;
      apply list_elem_of_filter in Hs as [Hp _].
    + by destruct Hp.
    + lia.
  - unfold relevant_sentences_of.
    destruct (filter (relevant _) _) as [|m ms] eqn:Ematch; cbn [truthy].
    + rewrite take_take, Nat.min_id. split; [done|].
      apply Forall_forall. intros s Hs. apply subseteq_take in Hs.
      apply list_elem_of_filter in Hs as [Hp Hin].
      by rewrite (sentences_of_trimmed _ _ Hin).
    + done.
  - by rewrite scan_relevant_spec by (simpl; lia).
  - intros pre post Hfull.
    rewrite !scan_relevant_spec by (simpl; lia). cbn [app].
    rewrite map_app. by apply take_filter_prefix.
  - intros Hnone.
    destruct (filter (relevant _) _) as [|s l] eqn:Ematch; [done|].
    assert (s ∈ filter (relevant (question_terms_of question))
                  (sentences_of context)) as Hs by (rewrite Ematch; left).
    apply list_elem_of_filter in Hs as [[_ Hm] Hin].
    rewrite Forall_forall in Hnone. specialize (Hnone s Hin). congruence.
Qed.

(** ** The definition and example extractors *)

Lemma has_cue_exists cues s :
  has_cue cues s = true →
  ∃ cue, cue ∈ cues ∧ contains (lower cue) (lower s) = true.
Proof.
  unfold has_cue. intros (cue & Hin & Hc)%existsb_exists.
  exists cue. by rewrite list_elem_of_In.
Qed.

Lemma cue_sentences_props min_len cap cues context :
  length (cue_sentences min_len cap cues context) ≤ cap
  ∧ Forall (λ s, min_len < length (strip s)
                 ∧ ∃ cue, cue ∈ cues ∧ contains (lower cue) (lower s) = true)
      (cue_sentences min_len cap cues context)
  ∧ cue_sentences min_len cap cues context `sublist_of` sentences_of context.
Proof.
  unfold cue_sentences. split_and!.
  - rewrite length_take. lia.
  - apply Forall_forall. intros s Hs. apply subseteq_take in Hs.
    apply list_elem_of_filter in Hs as [[Hlen Hcue] Hin].
    rewrite (sentences_of_trimmed _ _ Hin). split; [done|].
    by apply has_cue_exists.
  - etrans; [apply sublist_take|apply sublist_filter].
Qed.

Lemma scan_cues_stops min_len cap ms pre post :
  0 < cap →
  cap ≤ length (filter (found_by min_len ms) (map strip pre)) →
  scan_cues min_len cap ms (pre ++ post) [] = scan_cues min_len cap ms pre [].
Proof.
  intros Hcap Hfull. rewrite !scan_cues_spec by done. cbn [app].
  rewrite map_app. by apply take_filter_prefix.
Qed.

(** C6.  From a state with a sound cache, [extract_definitions] returns
    at most 3 sentences and [extract_examples] at most 2.  Each returned
    sentence has trimmed length above 20 (definitions) or 30 (examples)
    and contains one of the cue phrases, letter case ignored.  The
    result is taken from the sequence of the document's trimmed
    sentences by leaving sentences out, so the order is that of the
    document and no sentence of the document is taken twice; it consists
    of the first 3 (or 2) qualifying sentences, and once the cap is
    reached the rest of the document plays no part. *)
Theorem extract_definitions_examples_spec (context : str) (st : State) :
  cache_ok st →
  ∃ definitions examples st1 st2,
    extract_definitions context st = (Ret definitions, st1)
    ∧ extract_examples context st = (Ret examples, st2)
    ∧ length definitions ≤ 3
    ∧ length examples ≤ 2
    ∧ Forall (λ s, 20 < length (strip s)
                   ∧ ∃ cue, cue ∈ definition_cues
                            ∧ contains (lower cue) (lower s) = true)
        definitions
    ∧ Forall (λ s, 30 < length (strip s)
                   ∧ ∃ cue, cue ∈ example_cues
                            ∧ contains (lower cue) (lower s) = true)
        examples
    ∧ definitions `sublist_of` sentences_of context
    ∧ examples `sublist_of` sentences_of context
    ∧ definitions =
        take 3 (filter (cued 20 definition_cues) (sentences_of context))
    ∧ examples =
        take 2 (filter (cued 30 example_cues) (sentences_of context))
    ∧ (∀ ms pre post,
         3 ≤ length (filter (found_by 20 ms) (map strip pre)) →
         scan_cues 20 3 ms (pre ++ post) [] = scan_cues 20 3 ms pre [])
    ∧ (∀ ms pre post,
         2 ≤ length (filter (found_by 30 ms) (map strip pre)) →
         scan_cues 30 2 ms (pre ++ post) [] = scan_cues 30 2 ms pre []).
Proof.
  intros Hst.
  destruct (yields_extract_definitions context st Hst)
    as (definitions & st1 & Ed & -> & _).
  destruct (yields_extract_examples context st Hst)
    as (examples & st2 & Ee & -> & _).
  destruct (cue_sentences_props 20 3 definition_cues context)
    as (Hd1 & Hd2 & Hd3).
  destruct (cue_sentences_props 30 2 example_cues context)
    as (He1 & He2 & He3).
  exists (cue_sentences 20 3 definition_cues context),
    (cue_sentences 30 2 example_cues context), st1, st2.
  split_and!; [exact Ed|exact Ee|exact Hd1|exact He1|exact Hd2|exact He2
              |exact Hd3|exact He3|reflexivity|reflexivity|..].
  - intros ms pre post. apply scan_cues_stops. lia.
  - intros ms pre post. apply scan_cues_stops. lia.
Qed.

(** ** The photosynthesis example *)

Lemma photosynthesis_values :
  relevant_sentences_of photosynthesis_context photosynthesis_question =
    [photosynthesis_first]
  ∧ cue_sentences 20 3 definition_cues photosynthesis_context =
    [photosynthesis_first]
  ∧ cue_sentences 30 2 example_cues photosynthesis_context =
    [photosynthesis_second].
Proof. by vm_compute. Qed.

(** C8, as the code has it.  For the photosynthesis context and the
    question "What is photosynthesis?", from a state with a sound cache:
    [extract_relevant_sentences] returns the first sentence only (the
    one search term of the question is "photosynthesis", and the second
    sentence does not contain it); [extract_definitions] returns exactly
    the first sentence; [extract_examples] returns exactly the second. *)
Theorem photosynthesis_example (st : State) :
  cache_ok st →
  question_terms_of photosynthesis_question = [lit "photosynthesis"]
  ∧ ∃ st1 st2 st3,
      extract_relevant_sentences photosynthesis_context
        photosynthesis_question st = (Ret [photosynthesis_first], st1)
      ∧ extract_definitions photosynthesis_context st =
        (Ret [photosynthesis_first], st2)
      ∧ extract_examples photosynthesis_context st =
        (Ret [photosynthesis_second], st3).
Proof.
  intros Hst. split; [by vm_compute|].
  destruct photosynthesis_values as (Hr & Hd & He).
  destruct (yields_extract_relevant_sentences photosynthesis_context
              photosynthesis_question st Hst) as (r & st1 & Er & -> & _).
  destruct (yields_extract_definitions photosynthesis_context st Hst)
    as (d & st2 & Ed & -> & _).
  destruct (yields_extract_examples photosynthesis_context st Hst)
    as (e & st3 & Ee & -> & _).
  rewrite Hr in Er. rewrite Hd in Ed. rewrite He in Ee.
  exists st1, st2, st3. exact (conj Er (conj Ed Ee)).
Qed.

(** ** Questions without search terms *)

Lemma search_terms_all_stop_words found :
  Forall (λ token, token ∈ QUESTION_STOP_WORDS) found → search_terms found = [].
Proof.
  intros Hall. unfold search_terms.
  destruct (filter _ _) as [|t l] eqn:Ef; [done|].
  assert (t ∈ filter (λ term, term ∉ QUESTION_STOP_WORDS) (remove_dups found))
    as Ht by (rewrite Ef; left).
  apply list_elem_of_filter in Ht as [Hnot Hin].
  rewrite elem_of_remove_dups in Hin.
  rewrite Forall_forall in Hall. destruct Hnot. apply Hall. exact Hin.
Qed.

Lemma no_terms_no_match sentences : filter (relevant []) sentences = [].
Proof.
  induction sentences as [|s l IH]; [done|].
  rewrite filter_cons. destruct (decide (relevant [] s)) as [[_ Hm]|_]; [|done].
  discriminate Hm.
Qed.

(** C10.  When every alphabetic token of length 4 or more of the
    lower-cased question is an interrogative stop word (there may be no
    token at all), then, from a state with a sound cache and for every
    context: the matching scan selects nothing,
    [extract_relevant_sentences] returns the fallback set (the first 6,
    at most, trimmed sentences longer than 40), and when that set is
    empty [generate_detailed_answer] returns what
    [generate_comprehensive_fallback] makes of the context, the question
    and the key terms. *)
Theorem no_search_terms_takes_fallback
    (context question : str) (st : State) :
  Forall (λ token, token ∈ QUESTION_STOP_WORDS)
    (re_findall false AlphaWord (lower question)) →
  cache_ok st →
  scan_relevant (question_terms_of question)
    (re_split false TermRun context) [] = []
  ∧ (∃ st1,
       extract_relevant_sentences context question st =
         (Ret (take 6 (filter (λ s, 40 < length s) (sentences_of context))),
          st1))
  ∧ (take 6 (filter (λ s, 40 < length s) (sentences_of context)) = [] →
     ∃ st2,
       generate_detailed_answer context question st =
         (Ret (generate_comprehensive_fallback context question
                 (extract_key_terms context)), st2)).
Proof.
  intros Hstop Hst.
  assert (question_terms_of question = []) as Hterms
    by by apply search_terms_all_stop_words.
  assert (relevant_sentences_of context question =
          take 6 (filter (λ s, 40 < length s) (sentences_of context))) as Hval.
  { unfold relevant_sentences_of. rewrite Hterms, no_terms_no_match.
    cbn [truthy]. by rewrite take_take, Nat.min_id. }
  destruct (yields_extract_relevant_sentences context question st Hst)
    as (r & st1 & Er & -> & _).
  rewrite Hval in Er. split_and!.
  - rewrite scan_relevant_spec by (simpl; lia).
    fold (sentences_of context). by rewrite Hterms, no_terms_no_match.
  - by exists st1.
  - intros Hempty. exists st1.
    unfold generate_detailed_answer, bind. rewrite Er, Hempty. done.
Qed.

(** ** The local composer behind the orchestrator *)

Lemma yields_generate_detailed_answer context question :
  yields (generate_detailed_answer context question)
    (λ answer, answer = detailed_answer_of context question).
Proof.
  unfold generate_detailed_answer. cbv zeta.
  eapply yields_bind; [apply yields_extract_relevant_sentences|].
  intros r ->. unfold detailed_answer_of. cbv zeta.
  destruct (negb (truthy (relevant_sentences_of context question)));
    [by apply yields_ret|].
  eapply yields_bind.
  { instantiate (1 := λ d, d = if length (relevant_sentences_of context question) <? 6
                              then cue_sentences 20 3 definition_cues context
                              else []).
    destruct (_ <? 6); [apply yields_extract_definitions|by apply yields_ret]. }
  intros d ->. eapply yields_bind.
  { instantiate (1 := λ e, e = if length (relevant_sentences_of context question) <? 8
                              then cue_sentences 30 2 example_cues context
                              else []).
    destruct (_ <? 8); [apply yields_extract_examples|by apply yields_ret]. }
  intros e ->. by apply yields_ret.
Qed.

Lemma generate_watsonx_answer_same_cache W context question st :
  pattern_cache (generate_watsonx_answer W context question st).2 =
  pattern_cache st.
Proof.
  unfold generate_watsonx_answer, bind.
  destruct (watsonx_client st) as [c|] eqn:Hc.
  - rewrite (get_watsonx_client_set W st c Hc).
    unfold try_except, bind, text_generation_create, print, ret.
    by destruct (text_generation W _ c _).
  - rewrite (get_watsonx_client_unset W st Hc).
    destruct (api_client W _ _) as [[]|msg]; [|done].
    unfold try_except, bind, text_generation_create, print, ret. simpl.
    by destruct (text_generation W _ _ _).
Qed.

(** The adapter returns nothing when no client is set and none can be
    constructed. *)
Lemma generate_watsonx_answer_unavailable W context question st msg :
  watsonx_client st = None →
  api_client W (connections st) (configured_credentials W) = Raise msg →
  (generate_watsonx_answer W context question st).1 = Ret None.
Proof.
  intros Hc Hfail. unfold generate_watsonx_answer, bind.
  by rewrite (get_watsonx_client_unset W st Hc), Hfail.
Qed.

(** C3.  When the trimmed context has at least 50 characters and the
    remote adapter returns nothing for it, [generate_answer] returns the
    string that [generate_detailed_answer] returns for the same context
    and question, run in the state the adapter left; and the composer
    returns that same string from every state with a sound cache. *)
Theorem generate_answer_falls_back_to_composer
    (W : World) (context_chunks : list str) (question : str)
    (st st1 : State) :
  50 ≤ length (strip (join nl (take 3 context_chunks))) →
  cache_ok st →
  generate_watsonx_answer W (join nl (take 3 context_chunks)) question st =
    (Ret None, st1) →
  ∃ answer st2,
    generate_answer W context_chunks question st = (Ret answer, st2)
    ∧ generate_detailed_answer (join nl (take 3 context_chunks)) question st1 =
      (Ret answer, st2)
    ∧ ∀ st0, cache_ok st0 →
        ∃ st3,
          generate_detailed_answer (join nl (take 3 context_chunks)) question
            st0 = (Ret answer, st3).
Proof.
  intros Hlen Hst Hremote.
  set (context := join nl (take 3 context_chunks)) in *.
  assert (cache_ok st1) as Hst1.
  { pose proof (generate_watsonx_answer_same_cache W context question st) as Hc.
    rewrite Hremote in Hc. unfold cache_ok. simpl in Hc. by rewrite Hc. }
  destruct (yields_generate_detailed_answer context question st1 Hst1)
    as (answer & st2 & Ed & -> & _).
  exists (detailed_answer_of context question), st2. split_and!.
  - unfold generate_answer, generate_answer_with. fold context.
    destruct context as [|c ctx] eqn:Ectx; [simpl in Hlen; lia|].
    cbn [truthy negb orb]. apply Nat.ltb_ge in Hlen. rewrite Hlen.
    unfold try_except, answer_path, bind. rewrite Hremote. cbn [usable].
    by rewrite Ed.
  - exact Ed.
  - intros st0 Hst0.
    destruct (yields_generate_detailed_answer context question st0 Hst0)
      as (answer & st3 & E0 & -> & _).
    by exists st3.
Qed.

(** ** The term extractor *)

(** *** The words found by the word pattern *)

Lemma run_length_le p s : run_length p s ≤ length s.
Proof. induction s as [|c s IH]; simpl; [lia|]. destruct (p c); simpl; lia. Qed.

Lemma run_length_take p s :
  Forall (λ c, p c = true) (take (run_length p s) s).
Proof.
  induction s as [|c s IH]; simpl; [constructor|].
  destruct (p c) eqn:E; simpl; by constructor.
Qed.

Lemma match_at_AlphaWord ic prev s n :
  match_at ic AlphaWord prev s = Some n →
  n = run_length ascii_letter s ∧ 4 ≤ n.
Proof.
  unfold match_at. cbv zeta.
  destruct (negb (word_char_at prev)); [|done].
  destruct (4 <=? run_length ascii_letter s) eqn:E; [|done].
  destruct (negb (word_char_at _)); [|done].
  intros [= <-]. split; [done|by apply Nat.leb_le].
Qed.

Lemma findall_AlphaWord_token ic prev s skip t :
  t ∈ findall_from ic AlphaWord prev s skip →
  Forall (λ c, ascii_letter c = true ∧ c ∈ s) t ∧ 4 ≤ length t.
Proof.
  revert prev skip. induction s as [|c s IH]; intros prev skip.
  - cbn. by intros ?%elem_of_nil.
  - assert (∀ prev' skip', t ∈ findall_from ic AlphaWord prev' s skip' →
              Forall (λ c0, ascii_letter c0 = true ∧ c0 ∈ c :: s) t
              ∧ 4 ≤ length t) as IH'.
    { intros prev' skip' Ht. destruct (IH _ _ Ht) as [Hall Hlen].
      split; [|done]. eapply Forall_impl; [exact Hall|].
      intros x [? ?]. split; [done|by right]. }
    cbn [findall_from]. destruct skip as [|k]; [|apply IH'].
    destruct (match_at ic AlphaWord prev (c :: s)) as [[|n]|] eqn:Em;
      [apply IH'| |apply IH'].
    intros [->|Ht]%elem_of_cons; [|by eapply IH'].
    apply match_at_AlphaWord in Em as [Hn Hfour].
    split.
    + apply Forall_forall. intros x Hx. split.
      * pose proof (run_length_take ascii_letter (c :: s)) as Hrun.
        rewrite <- Hn in Hrun. rewrite Forall_forall in Hrun. by apply Hrun.
      * by eapply subseteq_take.
    + rewrite length_take_le; [done|].
      rewrite Hn. apply run_length_le.
Qed.

Lemma lower_char_letter c :
  ascii_letter (lower_char c) = true → ascii_lower_letter (lower_char c) = true.
Proof.
  destruct c as [[] [] [] [] [] [] [] []]; vm_compute; done.
Qed.

Lemma key_tokens_shape text t :
  t ∈ key_tokens text →
  Forall (λ c, ascii_lower_letter c = true) t
  ∧ 4 ≤ length t
  ∧ t ∉ KEY_STOP_WORDS.
Proof.
  unfold key_tokens. intros [Hstop Ht]%list_elem_of_filter.
  apply findall_AlphaWord_token in Ht as [Hall Hlen].
  split_and!; [|done|done].
  eapply Forall_impl; [exact Hall|]. intros c [Hc Hin]. cbv beta in *.
  unfold lower in Hin. apply list_elem_of_fmap in Hin as (c0 & -> & _).
  by apply lower_char_letter.
Qed.

(** *** The counter *)

Lemma Counter_snoc ws w : Counter (ws ++ [w]) = counter_add w (Counter ws).
Proof. unfold Counter. by rewrite foldl_snoc. Qed.

Lemma counter_add_keys w c :
  map fst (counter_add w c) =
  if decide (w ∈ map fst c) then map fst c else map fst c ++ [w].
Proof.
  induction c as [|[k n] c IH]; [done|].
  cbn [counter_add map fst]. destruct (decide (k = w)) as [->|Hne].
  - cbn [map fst]. rewrite decide_True; [done|left].
  - cbn [map fst]. rewrite IH. destruct (decide (w ∈ map fst c)) as [Hin|Hout].
    + rewrite decide_True; [done|by right].
    + rewrite decide_False; [done|].
      intros [?|?]%elem_of_cons; by simplify_eq.
Qed.

Lemma count_in_counter_add w c k :
  count_in (counter_add w c) k =
  if decide (k = w) then S (count_in c w) else count_in c k.
Proof.
  induction c as [|[k' n] c IH]; cbn [counter_add count_in].
  - destruct (decide (w = k)), (decide (k = w)); by simplify_eq.
  - destruct (decide (k' = w)) as [->|Hne]; cbn [count_in].
    + destruct (decide (w = k)), (decide (k = w)); by simplify_eq.
    + rewrite IH.
      destruct (decide (k' = k)), (decide (k = w)); by simplify_eq.
Qed.

Lemma occurrences_snoc k ws w :
  occurrences k (ws ++ [w]) =
  if decide (k = w) then S (occurrences k ws) else occurrences k ws.
Proof.
  unfold occurrences. rewrite filter_app, length_app, filter_cons, filter_nil.
  destruct (decide (w = k)), (decide (k = w)); simplify_eq; simpl; lia.
Qed.

Lemma count_in_Counter ws k : count_in (Counter ws) k = occurrences k ws.
Proof.
  induction ws as [|w ws IH] using rev_ind; [done|].
  rewrite Counter_snoc, count_in_counter_add, occurrences_snoc.
  destruct (decide (k = w)) as [->|]; by rewrite IH.
Qed.

Lemma Counter_keys_snoc ws w :
  map fst (Counter (ws ++ [w])) =
  if decide (w ∈ map fst (Counter ws)) then map fst (Counter ws)
  else map fst (Counter ws) ++ [w].
Proof. by rewrite Counter_snoc, counter_add_keys. Qed.

Lemma Counter_keys_elem ws k : k ∈ map fst (Counter ws) ↔ k ∈ ws.
Proof.
  induction ws as [|w ws IH] using rev_ind.
  - cbn. by rewrite !elem_of_nil.
  - rewrite Counter_keys_snoc, elem_of_app, list_elem_of_singleton.
    destruct (decide (w ∈ map fst (Counter ws))) as [Hin|Hout].
    + rewrite IH. split; [by left|]. intros [?| ->]; [done|by apply IH].
    + by rewrite elem_of_app, list_elem_of_singleton, IH.
Qed.

Lemma Counter_keys_NoDup ws : NoDup (map fst (Counter ws)).
Proof.
  induction ws as [|w ws IH] using rev_ind; [constructor|].
  rewrite Counter_keys_snoc. case_decide as Hin; [done|].
  apply NoDup_app. split_and!; [done| |apply NoDup_singleton].
  intros x Hx ->%list_elem_of_singleton. done.
Qed.

Lemma count_in_entry (c : list (str * nat)) k n :
  NoDup (map fst c) → (k, n) ∈ c → count_in c k = n.
Proof.
  induction c as [|[k' n'] c IH]; [by intros _ ?%elem_of_nil|].
  cbn [map fst count_in]. intros [Hk Hnd]%NoDup_cons.
  intros [?|Hin]%elem_of_cons.
  - simplify_eq. by rewrite decide_True.
  - rewrite decide_False; [by apply IH|].
    intros ->. apply Hk. by apply (list_elem_of_fmap_2 fst _ (k, n)).
Qed.

(** *** Positions of first occurrence *)

Lemma first_index_app_in k ws l :
  k ∈ ws → first_index k (ws ++ l) = first_index k ws.
Proof.
  induction ws as [|x ws IH]; [by intros ?%elem_of_nil|].
  cbn [first_index app]. destruct (decide (x = k)); [done|].
  intros [?|?]%elem_of_cons; [by simplify_eq|]. by rewrite IH.
Qed.

Lemma first_index_fresh k ws :
  k ∉ ws → first_index k (ws ++ [k]) = length ws.
Proof.
  induction ws as [|x ws IH]; cbn [first_index app length].
  - intros _. by rewrite decide_True.
  - intros Hk. rewrite decide_False, IH; [done| |].
    + intros ?. apply Hk. by right.
    + intros ->. apply Hk. left.
Qed.

Lemma first_index_lt k ws : k ∈ ws → first_index k ws < length ws.
Proof.
  induction ws as [|x ws IH]; [by intros ?%elem_of_nil|].
  cbn [first_index length]. destruct (decide (x = k)); [lia|].
  intros [?|?]%elem_of_cons; [by simplify_eq|]. apply IH in H. lia.
Qed.

Lemma StronglySorted_change_relation {A} (R R' : relation A) (l : list A) :
  (∀ a b, a ∈ l → b ∈ l → R a b → R' a b) →
  StronglySorted R l → StronglySorted R' l.
Proof.
  intros Himpl Hs. induction Hs as [|x l Hs IH Hx]; [constructor|].
  constructor.
  - apply IH. intros a b Ha Hb. apply Himpl; by right.
  - rewrite Forall_forall in Hx |- *. intros y Hy.
    apply Himpl; [left|by right|by apply Hx].
Qed.

Lemma Counter_keys_sorted ws :
  StronglySorted (λ a b, first_index a ws < first_index b ws)
    (map fst (Counter ws)).
Proof.
  induction ws as [|w ws IH] using rev_ind; [constructor|].
  assert (StronglySorted
            (λ a b, first_index a (ws ++ [w]) < first_index b (ws ++ [w]))
            (map fst (Counter ws))) as Hold.
  { eapply StronglySorted_change_relation; [|exact IH].
    intros a b Ha Hb Hlt. rewrite Counter_keys_elem in Ha, Hb. cbv beta.
    by rewrite (first_index_app_in _ _ _ Ha), (first_index_app_in _ _ _ Hb). }
  rewrite Counter_keys_snoc. case_decide as Hin; [done|].
  apply StronglySorted_app. split_and!; [|done|repeat constructor].
  intros a b Ha ->%list_elem_of_singleton.
  rewrite Counter_keys_elem in Ha, Hin.
  rewrite (first_index_app_in _ _ _ Ha), (first_index_fresh _ _ Hin).
  by apply first_index_lt.
Qed.

(** *** The stable sort *)

Section Sorting.

Variable pos : str → nat.

Lemma insert_by_count_perm x l : insert_by_count x l ≡ₚ x :: l.
Proof.
  induction l as [|y l IH]; cbn [insert_by_count]; [done|].
  destruct (x.2 <? y.2); [|done]. rewrite IH. apply Permutation_swap.
Qed.

Lemma sort_by_count_perm l : sort_by_count l ≡ₚ l.
Proof.
  induction l as [|x l IH]; [done|].
  cbn [sort_by_count foldr]. fold (sort_by_count l).
  by rewrite insert_by_count_perm, IH.
Qed.

Lemma insert_by_count_sorted x l :
  StronglySorted (entry_before pos) l →
  Forall (λ y, pos x.1 < pos y.1) l →
  StronglySorted (entry_before pos) (insert_by_count x l).
Proof.
  induction l as [|y l IH]; intros Hs Hpos; cbn [insert_by_count].
  - repeat constructor.
  - apply StronglySorted_cons in Hs as [Hy Hs].
    apply Forall_cons in Hpos as [Hxy Hpos].
    destruct (x.2 <? y.2) eqn:E.
    + apply Nat.ltb_lt in E. apply StronglySorted_cons. split; [|by apply IH].
      rewrite insert_by_count_perm. constructor; [by left|done].
    + apply Nat.ltb_ge in E. apply StronglySorted_cons. split.
      * constructor; [unfold entry_before; lia|].
        rewrite Forall_forall in Hy, Hpos |- *. intros z Hz.
        specialize (Hy z Hz). specialize (Hpos z Hz).
        unfold entry_before in *. lia.
      * by apply StronglySorted_cons.
Qed.

Lemma sort_by_count_sorted l :
  StronglySorted (λ x y, pos x.1 < pos y.1) l →
  StronglySorted (entry_before pos) (sort_by_count l).
Proof.
  induction 1 as [|x l Hs IH Hx]; [constructor|].
  cbn [sort_by_count foldr]. fold (sort_by_count l).
  apply insert_by_count_sorted; [done|].
  by rewrite sort_by_count_perm.
Qed.

End Sorting.

Lemma StronglySorted_of_keys {A B} (f : A → B) (R : relation B) (l : list A) :
  StronglySorted R (map f l) → StronglySorted (λ x y, R (f x) (f y)) l.
Proof.
  induction l as [|x l IH]; [constructor|].
  cbn [map]. intros Hall. inversion_clear Hall as [|?? Hs Hx].
  constructor; [by apply IH|].
  apply (Forall_fmap f (R (f x)) l) in Hx. exact Hx.
Qed.

(** *** The ranking *)

Section Ranking.

Variable text : str.

Let tokens : list str := key_tokens text.
Let sorted : list (str * nat) := sort_by_count (Counter tokens).
Let pos (k : str) : nat := first_index k tokens.

Lemma extract_key_terms_unfold :
  extract_key_terms text = map fst (take 10 sorted).
Proof. reflexivity. Qed.

Lemma sorted_entry k n :
  (k, n) ∈ sorted → k ∈ tokens ∧ n = occurrences k tokens.
Proof.
  unfold sorted. rewrite sort_by_count_perm. intros Hin. split.
  - apply Counter_keys_elem. by apply (list_elem_of_fmap_2 fst _ (k, n)).
  - rewrite <- count_in_Counter. symmetry.
    apply count_in_entry; [apply Counter_keys_NoDup|done].
Qed.

Lemma sorted_is_sorted : StronglySorted (entry_before pos) sorted.
Proof.
  apply sort_by_count_sorted.
  apply (StronglySorted_of_keys fst (λ a b, pos a < pos b)).
  apply Counter_keys_sorted.
Qed.

Lemma sorted_keys_NoDup : NoDup (map fst sorted).
Proof.
  unfold sorted.
  rewrite (fmap_Permutation fst _ _ (sort_by_count_perm (Counter tokens))).
  apply Counter_keys_NoDup.
Qed.

Lemma entry_before_outranks x y :
  x ∈ sorted → y ∈ sorted → entry_before pos x y → outranks tokens x.1 y.1.
Proof.
  destruct x as [a na], y as [b nb].
  intros [_ ->]%sorted_entry [_ ->]%sorted_entry. unfold entry_before, outranks.
  cbn [fst snd]. unfold pos. lia.
Qed.

Lemma token_has_entry b : b ∈ tokens → ∃ n, (b, n) ∈ sorted.
Proof.
  intros Hb. apply Counter_keys_elem in Hb.
  apply list_elem_of_fmap in Hb as ([b' n] & -> & Hin).
  exists n. unfold sorted. by rewrite sort_by_count_perm.
Qed.

Lemma key_terms_length :
  length (extract_key_terms text) = min 10 (length (remove_dups tokens)).
Proof.
  rewrite extract_key_terms_unfold, length_map, length_take. f_equal.
  unfold sorted. rewrite sort_by_count_perm.
  rewrite <- (length_map fst (Counter tokens)).
  apply Permutation_length, NoDup_Permutation.
  - apply Counter_keys_NoDup.
  - apply NoDup_remove_dups.
  - intros k. by rewrite Counter_keys_elem, elem_of_remove_dups.
Qed.

Lemma key_terms_sorted :
  StronglySorted (outranks tokens) (extract_key_terms text).
Proof.
  rewrite extract_key_terms_unfold.
  apply (StronglySorted_fmap fst (λ x y, outranks tokens x.1 y.1)); [done|].
  apply (StronglySorted_change_relation (entry_before pos)).
  - intros x y Hx%subseteq_take Hy%subseteq_take. by apply entry_before_outranks.
  - pose proof sorted_is_sorted as Hs.
    rewrite <- (take_drop 10 sorted) in Hs.
    by apply StronglySorted_app_1_l in Hs.
Qed.

Lemma key_terms_dominate a b :
  a ∈ extract_key_terms text → b ∈ tokens → b ∉ extract_key_terms text →
  outranks tokens a b.
Proof.
  rewrite extract_key_terms_unfold.
  intros ([a' na] & -> & Ha)%list_elem_of_fmap Hb Hout.
  destruct (token_has_entry b Hb) as [nb Hnb].
  assert ((b, nb) ∈ drop 10 sorted) as Hdrop.
  { rewrite <- (take_drop 10 sorted) in Hnb.
    apply elem_of_app in Hnb as [Htake|?]; [|done].
    destruct Hout. by apply (list_elem_of_fmap_2 fst _ (b, nb)). }
  apply (entry_before_outranks (a', na) (b, nb));
    [by eapply subseteq_take|done|].
  pose proof sorted_is_sorted as Hs.
  rewrite <- (take_drop 10 sorted) in Hs.
  by eapply StronglySorted_app_1_elem_of.
Qed.

Lemma key_terms_are_tokens t : t ∈ extract_key_terms text → t ∈ tokens.
Proof.
  rewrite extract_key_terms_unfold.
  intros ([t' n] & -> & Hin%subseteq_take)%list_elem_of_fmap.
  by apply sorted_entry in Hin as [? _].
Qed.

Lemma key_terms_NoDup : NoDup (extract_key_terms text).
Proof.
  rewrite extract_key_terms_unfold.
  change (map fst (take 10 sorted)) with (fst <$> take 10 sorted).
  rewrite fmap_take.
  eapply sublist_NoDup; [apply sorted_keys_NoDup|apply sublist_take].
Qed.

End Ranking.

(** C5.  [extract_key_terms] returns at most 10 terms.  Every term is
    made of the letters a to z only, has at least 4 of them, is not a
    stop word, and is one of the counted tokens of the text.  No term is
    returned twice, and all distinct tokens are returned when there are
    at most 10.  The terms are the most frequent tokens, ties broken by
    the order of first occurrence: each returned term ranks before the
    terms returned after it and before every token that is not
    returned. *)
Theorem extract_key_terms_spec (text : str) :
  length (extract_key_terms text) ≤ 10
  ∧ Forall (λ term,
              Forall (λ c, ascii_lower_letter c = true) term
              ∧ 4 ≤ length term
              ∧ (term ∉ KEY_STOP_WORDS)
              ∧ term ∈ key_tokens text)
      (extract_key_terms text)
  ∧ NoDup (extract_key_terms text)
  ∧ length (extract_key_terms text) =
      min 10 (length (remove_dups (key_tokens text)))
  ∧ StronglySorted (outranks (key_tokens text)) (extract_key_terms text)
  ∧ (∀ a b,
       a ∈ extract_key_terms text →
       b ∈ key_tokens text →
       b ∉ extract_key_terms text →
       outranks (key_tokens text) a b).
Proof.
  split_and!.
  - rewrite key_terms_length. lia.
  - apply Forall_forall. intros t Ht%key_terms_are_tokens.
    destruct (key_tokens_shape text t Ht) as (H1 & H2 & H3). done.
  - apply key_terms_NoDup.
  - apply key_terms_length.
  - apply key_terms_sorted.
  - apply key_terms_dominate.
Qed.

(** * Further properties of the module *)

(** ** Relations kept by every computation *)

Section Stable.

Variable R : State → State → Prop.
Hypothesis R_refl : ∀ st, R st st.
Hypothesis R_trans : ∀ st1 st2 st3, R st1 st2 → R st2 st3 → R st1 st3.

Lemma stable_ret {A} (a : A) : stable R (ret a).
Proof using R_refl. intros st r st' [= _ <-]. apply R_refl. Qed.

Lemma stable_raise {A} msg : stable R (@raise A msg).
Proof using R_refl. intros st r st' [= _ <-]. apply R_refl. Qed.

Lemma stable_bind {A B} (c : M A) (k : A → M B) :
  stable R c → (∀ a, stable R (k a)) → stable R (bind c k).
Proof using R_trans.
  intros Hc Hk st r st'. unfold bind.
  destruct (c st) as [[a|msg] st1] eqn:Ec.
  - intros Ek. eapply R_trans; [by eapply Hc | by eapply Hk].
  - intros [= _ <-]. by eapply Hc.
Qed.

Lemma stable_try_except {A} (body : M A) (handler : str → M A) :
  stable R body → (∀ e, stable R (handler e)) →
  stable R (try_except body handler).
Proof using R_trans.
  intros Hb Hh st r st'. unfold try_except.
  destruct (body st) as [[a|msg] st1] eqn:Eb.
  - intros [= _ <-]. by eapply Hb.
  - intros Eh. eapply R_trans; [by eapply Hb | by eapply Hh].
Qed.

Lemma stable_mapM {A B} (f : A → M B) (l : list A) :
  Forall (λ x, stable R (f x)) l → stable R (mapM f l).
Proof using R_refl R_trans.
  induction 1 as [|x l Hx _ IH]; cbn [mapM].
  - apply stable_ret.
  - apply stable_bind; [done|]. intros y.
    apply stable_bind; [done|]. intros ys. apply stable_ret.
Qed.

Lemma stable_if {A} (b : bool) (c1 c2 : M A) :
  stable R c1 → stable R c2 → stable R (if b then c1 else c2).
Proof. by destruct b. Qed.

(** The steps that change the state, assumed to keep [R]. *)
Variable W : World.
Variable allowed : str → Prop.
Hypothesis allowed_module : ∀ p, p ∈ module_patterns → allowed p.
Hypothesis R_pattern : ∀ p, allowed p → stable R (get_cached_pattern p).
Hypothesis R_client : stable R (get_watsonx_client W).
Hypothesis R_print : ∀ line, stable R (print line).
Hypothesis R_request : ∀ c prompt, stable R (text_generation_create W c prompt).

Lemma stable_module_pattern p :
  p ∈ module_patterns → stable R (get_cached_pattern p).
Proof using allowed_module R_pattern. intros Hp. by apply R_pattern, allowed_module. Qed.

Lemma stable_extract_relevant_sentences context question :
  stable R (extract_relevant_sentences context question).
Proof using R_refl R_trans allowed_module R_pattern.
  unfold extract_relevant_sentences.
  apply stable_bind; [apply stable_module_pattern; left|]. intros splitter.
  apply stable_bind; [apply stable_module_pattern; right; left|]. intros words.
  apply stable_ret.
Qed.

Lemma stable_cue_patterns patterns :
  patterns ⊆ module_patterns →
  stable R (mapM get_cached_pattern patterns).
Proof using R_refl R_trans allowed_module R_pattern.
  intros Hsub. apply stable_mapM, Forall_forall. intros p Hp.
  by apply stable_module_pattern, Hsub.
Qed.

Lemma stable_extract_definitions context :
  stable R (extract_definitions context).
Proof using R_refl R_trans allowed_module R_pattern.
  unfold extract_definitions. cbv zeta. apply stable_bind.
  - apply stable_cue_patterns. intros p Hp. unfold module_patterns.
    do 2 right. apply elem_of_app. by left.
  - intros ms. apply stable_ret.
Qed.

Lemma stable_extract_examples context :
  stable R (extract_examples context).
Proof using R_refl R_trans allowed_module R_pattern.
  unfold extract_examples. cbv zeta. apply stable_bind.
  - apply stable_cue_patterns. intros p Hp. unfold module_patterns.
    do 2 right. apply elem_of_app. by right.
  - intros ms. apply stable_ret.
Qed.

Lemma stable_generate_detailed_answer context question :
  stable R (generate_detailed_answer context question).
Proof using R_refl R_trans allowed_module R_pattern.
  unfold generate_detailed_answer. cbv zeta.
  apply stable_bind; [apply stable_extract_relevant_sentences|]. intros rs.
  apply stable_if; [apply stable_ret|].
  apply stable_bind.
  { apply stable_if; [apply stable_extract_definitions|apply stable_ret]. }
  intros ds. apply stable_bind.
  { apply stable_if; [apply stable_extract_examples|apply stable_ret]. }
  intros es. apply stable_ret.
Qed.

Lemma stable_generate_watsonx_answer context question :
  stable R (generate_watsonx_answer W context question).
Proof using R_refl R_trans R_client R_print R_request.
  unfold generate_watsonx_answer.
  apply stable_bind; [exact R_client|]. intros [c|]; [|apply stable_ret].
  apply stable_try_except.
  - apply stable_bind; [apply R_request|]. intros t. apply stable_ret.
  - intros e. apply stable_bind; [apply R_print|]. intros _. apply stable_ret.
Qed.

Lemma stable_generate_answer context_chunks question :
  stable R (generate_answer W context_chunks question).
Proof using All.
  unfold generate_answer, generate_answer_with, answer_path. cbv zeta.
  apply stable_if; [apply stable_ret|].
  apply stable_try_except; [|intros e; apply stable_ret].
  apply stable_bind; [apply stable_generate_watsonx_answer|]. intros a.
  apply stable_if; [apply stable_ret|apply stable_generate_detailed_answer].
Qed.

Lemma stable_run o st : permitted allowed o → R st (run W o st).
Proof using All.
  destruct o; cbn [permitted run]; intros Hp;
    match goal with
    | |- R st (?c st).2 => destruct (c st) as [r st'] eqn:E; cbn [snd]
    end.
  - by eapply R_pattern.
  - by eapply R_client.
  - by eapply stable_extract_relevant_sentences.
  - by eapply stable_extract_definitions.
  - by eapply stable_extract_examples.
  - by eapply stable_generate_detailed_answer.
  - by eapply stable_generate_watsonx_answer.
  - by eapply stable_generate_answer.
Qed.

Lemma stable_run_all ops st :
  Forall (permitted allowed) ops → R st (run_all W ops st).
Proof using All.
  intros Hops. revert st.
  induction Hops as [|o ops Ho _ IH]; intros st; cbn; [apply R_refl|].
  eapply R_trans; [by apply stable_run|apply IH].
Qed.

End Stable.

(** ** What each step changes *)

Lemma get_cached_pattern_same_remote pattern st :
  same_remote st (get_cached_pattern pattern st).2.
Proof.
  destruct (pattern_cache st !! pattern) as [m|] eqn:Hm.
  - by rewrite (get_cached_pattern_hit _ _ _ Hm).
  - destruct (re_compile pattern) as [rx|msg] eqn:Hr.
    + by rewrite (get_cached_pattern_miss _ _ _ Hm Hr).
    + by rewrite (get_cached_pattern_invalid _ _ _ Hm Hr).
Qed.


Lemma stable_by_snd (R : State → State → Prop) {A} (c : M A) :
  (∀ st, R st (c st).2) → stable R c.
Proof. intros H st r st' E. specialize (H st). by rewrite E in H. Qed.

(** ** A client that is set is kept *)

Lemma keeps_client_refl st : keeps_client st st.
Proof. by intros c Hc. Qed.

Lemma keeps_client_trans st1 st2 st3 :
  keeps_client st1 st2 → keeps_client st2 st3 → keeps_client st1 st3.
Proof.
  intros H12 H23 c Hc. destruct (H12 c Hc) as [Hc2 Hn2].
  destruct (H23 c Hc2) as [Hc3 Hn3]. split; [done|congruence].
Qed.

Lemma keeps_client_same_remote st st' : same_remote st st' → keeps_client st st'.
Proof. intros (Hc & Hn & _) c Hset. split; congruence. Qed.

Lemma keeps_client_get_watsonx_client W :
  stable keeps_client (get_watsonx_client W).
Proof.
  apply stable_by_snd. intros st c Hc.
  by rewrite (get_watsonx_client_set W st c Hc).
Qed.

(** X1.  Once a client is set, it is the client for the rest of the
    process: after any sequence of calls of the module's operations the
    same client is set, and no further client was constructed. *)
Theorem set_client_is_kept
    (W : World) (ops : list operation) (st : State) (c : Client) :
  watsonx_client st = Some c →
  watsonx_client (run_all W ops st) = Some c
  ∧ connections (run_all W ops st) = connections st.
Proof.
  intros Hc.
  apply (stable_run_all keeps_client keeps_client_refl keeps_client_trans W
           (λ _, True)); [done| | | | | |done].
  - intros p _. apply stable_by_snd. intros st0.
    apply keeps_client_same_remote, get_cached_pattern_same_remote.
  - apply keeps_client_get_watsonx_client.
  - intros line. apply stable_by_snd. intros st0. by intros c0 Hc0.
  - intros c0 prompt. apply stable_by_snd. intros st0. by intros c1 Hc1.
  - clear. induction ops as [|o ops IH]; constructor; [by destruct o|done].
Qed.

(** ** Every pattern is compiled once *)





(** ** The cache stays within the module's patterns *)







(** The module's own sources all lie in the fragment: compiling them
    never reaches the library. *)
Lemma module_patterns_in_fragment :
  Forall (λ p, is_Some (in_fragment p)) module_patterns.
Proof. apply (bool_decide_unpack _). by vm_compute. Qed.


(** ** The remote adapter *)


Lemma generate_watsonx_answer_cases W context question st :
  ∃ st1,
    (generate_watsonx_answer W context question st = (Ret None, st1)
     ∨ ∃ generated_text,
         generate_watsonx_answer W context question st =
           (Ret (Some (format_watsonx_answer generated_text question)), st1))
    ∧ pattern_cache st1 = pattern_cache st
    ∧ compiled st1 = compiled st
    ∧ connections st ≤ connections st1 ≤ S (connections st)
    ∧ (requests st1 = requests st
       ∨ requests st1 = make_prompt context question :: requests st).
Proof.
  unfold generate_watsonx_answer, bind.
  destruct (watsonx_client st) as [c|] eqn:Hc.
  - rewrite (get_watsonx_client_set W st c Hc).
    unfold try_except, bind, text_generation_create, print, ret.
    destruct (text_generation W _ c _) as [t|msg]; eexists;
      (split; [by eauto|]); cbn; split_and!; auto; lia.
  - rewrite (get_watsonx_client_unset W st Hc).
    destruct (api_client W _ _) as [[]|msg].
    + unfold try_except, bind, text_generation_create, print, ret. cbn.
      destruct (text_generation W _ _ _) as [t|msg]; eexists;
        (split; [by eauto|]); cbn; split_and!; auto; lia.
    + eexists. split; [by left|]. cbn. split_and!; auto; lia.
Qed.


(** ** The orchestrator on a sufficient context *)

Lemma generate_answer_sufficient W context_chunks question st :
  50 ≤ length (strip (join nl (take 3 context_chunks))) →
  generate_answer W context_chunks question st =
    try_except
      (answer_path (generate_watsonx_answer W) generate_detailed_answer
         (join nl (take 3 context_chunks)) question)
      (λ e, ret (lit "Error processing your question: " ++ e)) st.
Proof.
  intros Hlen. unfold generate_answer, generate_answer_with. cbv zeta.
  destruct (join nl (take 3 context_chunks)) as [|c ctx] eqn:Ectx;
    [simpl in Hlen; lia|].
  cbn [truthy negb orb]. apply Nat.ltb_ge in Hlen. by rewrite Hlen.
Qed.

(** X5.  When the context is long enough and the adapter returns an
    answer, [generate_answer] returns that answer unchanged and does no
    local work: the state is the one the adapter left, with the pattern
    cache and the number of compiled patterns as before the call. *)
Theorem generate_answer_returns_remote_answer
    (W : World) (context_chunks : list str) (question answer : str)
    (st st1 : State) :
  50 ≤ length (strip (join nl (take 3 context_chunks))) →
  generate_watsonx_answer W (join nl (take 3 context_chunks)) question st =
    (Ret (Some answer), st1) →
  generate_answer W context_chunks question st = (Ret answer, st1)
  ∧ pattern_cache st1 = pattern_cache st
  ∧ compiled st1 = compiled st.
Proof.
  intros Hlen Hremote.
  destruct (generate_watsonx_answer_cases W (join nl (take 3 context_chunks))
              question st) as (st1' & [E|[t E]] & Hcache & Hcompiled & _);
    rewrite Hremote in E; simplify_eq.
  split_and!; [|done|done].
  rewrite (generate_answer_sufficient _ _ _ _ Hlen).
  unfold try_except, answer_path, bind. by rewrite Hremote.
Qed.

(** ** The title of an answer *)






(** ** One attempt per call *)

Lemma same_remote_refl st : same_remote st st.
Proof. by repeat split. Qed.

Lemma same_remote_trans st1 st2 st3 :
  same_remote st1 st2 → same_remote st2 st3 → same_remote st1 st3.
Proof.
  intros (H1 & H2 & H3 & H4) (K1 & K2 & K3 & K4). repeat split; congruence.
Qed.

Lemma generate_detailed_answer_same_remote context question st :
  same_remote st (generate_detailed_answer context question st).2.
Proof.
  destruct (generate_detailed_answer context question st) as [r st'] eqn:E.
  eapply (stable_generate_detailed_answer same_remote same_remote_refl
            same_remote_trans (λ _, True)); [done| |exact E].
  intros p _. apply stable_by_snd. intros st0.
  apply get_cached_pattern_same_remote.
Qed.

(** X7.  One call of [generate_answer] makes at most one attempt to
    construct a client and sends at most one request, the prompt built
    from the joined context and the question: a failure is never
    retried, and the local composer never touches the remote service. *)
Theorem generate_answer_single_attempt
    (W : World) (context_chunks : list str) (question : str) (st : State) :
  connections st ≤ connections (generate_answer W context_chunks question st).2
  ∧ connections (generate_answer W context_chunks question st).2
    ≤ S (connections st)
  ∧ (requests (generate_answer W context_chunks question st).2 = requests st
     ∨ requests (generate_answer W context_chunks question st).2 =
       make_prompt (join nl (take 3 context_chunks)) question :: requests st).
Proof.
  unfold generate_answer, generate_answer_with. cbv zeta.
  destruct (negb _ || _); [cbn; split_and!; auto; lia|].
  unfold try_except, answer_path, bind.
  destruct (generate_watsonx_answer_cases W (join nl (take 3 context_chunks))
              question st) as (st1 & Hres & _ & _ & Hconn & Hreq).
  assert (∀ r, (let (r0, st') :=
                  (if usable r then ret (default [] r)
                   else generate_detailed_answer
                          (join nl (take 3 context_chunks)) question) st1 in
                match r0 with
                | Ret a => (Ret a, st')
                | Raise msg => ret (lit "Error processing your question: " ++ msg) st'
                end).2 = (if usable r then st1
                          else (generate_detailed_answer
                                  (join nl (take 3 context_chunks)) question st1).2))
    as Hafter.
  { intros r. destruct (usable r); [done|].
    by destruct (generate_detailed_answer _ _ st1) as [[a|msg] st2]. }
  assert (∀ r, same_remote st1
                 (if usable r then st1
                  else (generate_detailed_answer
                          (join nl (take 3 context_chunks)) question st1).2))
    as Hsame.
  { intros r. destruct (usable r); [apply same_remote_refl|].
    apply generate_detailed_answer_same_remote. }
  destruct Hres as [E|[t E]]; rewrite E, Hafter;
    match goal with
    | |- context [usable ?r] => destruct (Hsame r) as (_ & Hn & Hr & _)
    end; rewrite Hn, Hr; split_and!; auto; lia.
Qed.

(** ** A second call changes nothing *)

Lemma cached_weaken st st' p :
  pattern_cache st ⊆ pattern_cache st' → cached st p → cached st' p.
Proof.
  intros Hsub [m Hm]. exists m. by eapply lookup_weaken.
Qed.

Lemma bind_ret_inv {A B} (c : M A) (k : A → M B) st b st2 :
  bind c k st = (Ret b, st2) →
  ∃ a st1, c st = (Ret a, st1) ∧ k a st1 = (Ret b, st2).
Proof.
  unfold bind. destruct (c st) as [[a|msg] st1]; [by eauto|done].
Qed.

Lemma mapM_get_cached_pattern_stores patterns st ms st1 :
  mapM get_cached_pattern patterns st = (Ret ms, st1) →
  Forall (cached st1) patterns.
Proof.
  revert st ms. induction patterns as [|p ps IH]; intros st ms E; [constructor|].
  cbn [mapM] in E.
  apply bind_ret_inv in E as (m & sa & Ep & E).
  apply bind_ret_inv in E as (ms' & sb & Eps & E).
  injection E as _ <-. constructor; [|by eapply IH].
  eapply cached_weaken.
  - eapply (grows_mapM get_cached_pattern ps grows_get_cached_pattern), Eps.
  - exists m. by eapply get_cached_pattern_stores.
Qed.

Lemma mapM_get_cached_pattern_settled patterns st :
  Forall (cached st) patterns →
  ∃ ms, mapM get_cached_pattern patterns st = (Ret ms, st).
Proof.
  induction 1 as [|p ps [m Hm] _ [ms IH]]; [by exists []|].
  exists (m :: ms). cbn [mapM]. unfold bind.
  by rewrite (get_cached_pattern_hit _ _ _ Hm), IH.
Qed.

Lemma optional_cue_scan_first b min_len cap patterns cues context st :
  0 < cap →
  Forall2 (λ p r, in_fragment p = Some r) patterns (map Lit cues) →
  cache_ok st →
  ∃ st1,
    optional_cue_scan b min_len cap patterns context st =
      (Ret (if b then cue_sentences min_len cap cues context else []), st1)
    ∧ extends st st1
    ∧ (b = true → Forall (cached st1) patterns).
Proof.
  intros Hcap Hcompile Hst. unfold optional_cue_scan. destruct b.
  - destruct (yields_cue_scan min_len cap patterns cues context Hcap Hcompile
                st Hst) as (r & st1 & E & -> & Hst1).
    exists st1. split_and!; [done| |].
    + eapply (grows_bind _ _ (grows_mapM _ _ grows_get_cached_pattern));
        [|exact E]. intros ms. apply grows_ret.
    + intros _. apply bind_ret_inv in E as (ms & sa & Ems & E).
      injection E as _ <-. by eapply mapM_get_cached_pattern_stores.
  - exists st. split_and!; [done|apply extends_refl|done].
Qed.

Lemma optional_cue_scan_settled b min_len cap patterns cues context st :
  0 < cap →
  Forall2 (λ p r, in_fragment p = Some r) patterns (map Lit cues) →
  cache_ok st →
  (b = true → Forall (cached st) patterns) →
  optional_cue_scan b min_len cap patterns context st =
    (Ret (if b then cue_sentences min_len cap cues context else []), st).
Proof.
  intros Hcap Hcompile Hst Hwarm.
  destruct (optional_cue_scan_first b min_len cap patterns cues context st
              Hcap Hcompile Hst) as (st1 & E & _ & _).
  rewrite E. f_equal. unfold optional_cue_scan in E.
  destruct b; [|unfold ret in E; by simplify_eq].
  destruct (mapM_get_cached_pattern_settled patterns st (Hwarm eq_refl))
    as [ms Ems].
  unfold bind in E. rewrite Ems in E. unfold ret in E. by simplify_eq.
Qed.

Lemma extract_relevant_sentences_first context question st :
  cache_ok st →
  ∃ st1,
    extract_relevant_sentences context question st =
      (Ret (relevant_sentences_of context question), st1)
    ∧ extends st st1
    ∧ cached st1 TERMINATORS ∧ cached st1 WORDS.
Proof.
  intros Hst.
  destruct (yields_extract_relevant_sentences context question st Hst)
    as (r & st1 & E & -> & _).
  exists st1. split_and!; [done|by eapply grows_extract_relevant_sentences|..];
    unfold extract_relevant_sentences in E;
    apply bind_ret_inv in E as (m1 & sa & E1 & E);
    apply bind_ret_inv in E as (m2 & sb & E2 & E);
    injection E as _ <-.
  - eapply cached_weaken; [eapply grows_get_cached_pattern, E2|].
    exists m1. by eapply get_cached_pattern_stores.
  - exists m2. by eapply get_cached_pattern_stores.
Qed.

Lemma extract_relevant_sentences_settled context question st :
  cache_ok st → cached st TERMINATORS → cached st WORDS →
  extract_relevant_sentences context question st =
    (Ret (relevant_sentences_of context question), st).
Proof.
  intros Hst [m1 H1] [m2 H2].
  destruct (extract_relevant_sentences_first context question st Hst)
    as (st1 & E & _). rewrite E. f_equal.
  unfold extract_relevant_sentences, bind in E.
  rewrite (get_cached_pattern_hit _ _ _ H1), (get_cached_pattern_hit _ _ _ H2)
    in E.
  unfold ret in E. by simplify_eq.
Qed.

Lemma generate_detailed_answer_unfold context question :
  generate_detailed_answer context question =
  bind (extract_relevant_sentences context question)
    (λ relevant_sentences,
       if negb (truthy relevant_sentences) then
         ret (generate_comprehensive_fallback context question
                (extract_key_terms context))
       else
         bind (optional_cue_scan (length relevant_sentences <? 6) 20 3
                 definition_patterns context)
           (λ definitions,
              bind (optional_cue_scan (length relevant_sentences <? 8) 30 2
                      example_patterns context)
                (λ examples,
                   ret (assemble_answer context question
                          (extract_key_terms context) relevant_sentences
                          definitions examples)))).
Proof. reflexivity. Qed.

(** The patterns that [generate_detailed_answer] needs for a context and
    a question are cached in [st]. *)
Lemma generate_detailed_answer_first context question st :
  cache_ok st →
  ∃ st1,
    generate_detailed_answer context question st =
      (Ret (detailed_answer_of context question), st1)
    ∧ extends st st1
    ∧ cached st1 TERMINATORS ∧ cached st1 WORDS
    ∧ (truthy (relevant_sentences_of context question) = true →
       ((length (relevant_sentences_of context question) <? 6) = true →
        Forall (cached st1) definition_patterns)
       ∧ ((length (relevant_sentences_of context question) <? 8) = true →
          Forall (cached st1) example_patterns)).
Proof.
  intros Hst. rewrite generate_detailed_answer_unfold. unfold bind.
  destruct (extract_relevant_sentences_first context question st Hst)
    as (sa & Er & Hsa & HT & HW).
  rewrite Er. unfold detailed_answer_of. cbv zeta.
  destruct (truthy (relevant_sentences_of context question)) eqn:Hrs; cbn [negb].
  2:{ exists sa. by split_and!. }
  destruct (optional_cue_scan_first
              (length (relevant_sentences_of context question) <? 6) 20 3
              definition_patterns definition_cues context sa)
    as (sb & Ed & Hsb & Hd);
    [lia|apply compile_definition_patterns|by apply Hsa|].
  rewrite Ed.
  destruct (optional_cue_scan_first
              (length (relevant_sentences_of context question) <? 8) 30 2
              example_patterns example_cues context sb)
    as (sc & Ee & Hsc & He);
    [lia|apply compile_example_patterns|by apply Hsb, Hsa|].
  rewrite Ee. exists sc.
  assert (pattern_cache sa ⊆ pattern_cache sc) as Hac
    by (etrans; [apply Hsb|apply Hsc]).
  split_and!.
  - done.
  - eapply extends_trans; [exact Hsa|]. by eapply extends_trans.
  - by eapply cached_weaken.
  - by eapply cached_weaken.
  - intros _. split; [|done].
    intros H6. eapply Forall_impl; [by apply Hd|].
    intros p. apply cached_weaken, Hsc.
Qed.

Lemma generate_detailed_answer_settled context question st :
  cache_ok st →
  cached st TERMINATORS → cached st WORDS →
  (truthy (relevant_sentences_of context question) = true →
   ((length (relevant_sentences_of context question) <? 6) = true →
    Forall (cached st) definition_patterns)
   ∧ ((length (relevant_sentences_of context question) <? 8) = true →
      Forall (cached st) example_patterns)) →
  generate_detailed_answer context question st =
    (Ret (detailed_answer_of context question), st).
Proof.
  intros Hst HT HW Hcues. rewrite generate_detailed_answer_unfold. unfold bind.
  rewrite (extract_relevant_sentences_settled _ _ _ Hst HT HW).
  unfold detailed_answer_of. cbv zeta.
  destruct (truthy (relevant_sentences_of context question)) eqn:Hrs;
    cbn [negb]; [|done].
  destruct (Hcues eq_refl) as [Hd He].
  rewrite (optional_cue_scan_settled _ 20 3 definition_patterns definition_cues);
    [|lia|apply compile_definition_patterns|done|done].
  by rewrite (optional_cue_scan_settled _ 30 2 example_patterns example_cues);
    [|lia|apply compile_example_patterns|done|done].
Qed.

(** X8.  From a state with a sound cache, a call of
    [extract_relevant_sentences], [extract_definitions],
    [extract_examples] or [generate_detailed_answer] leaves a state in
    which the same call returns the same result and changes nothing: the
    patterns it needs are all cached, none is compiled again. *)
Theorem second_call_changes_nothing
    (context question : str) (st : State) :
  cache_ok st →
  (∀ r st1, extract_relevant_sentences context question st = (r, st1) →
            extract_relevant_sentences context question st1 = (r, st1))
  ∧ (∀ r st1, extract_definitions context st = (r, st1) →
              extract_definitions context st1 = (r, st1))
  ∧ (∀ r st1, extract_examples context st = (r, st1) →
              extract_examples context st1 = (r, st1))
  ∧ (∀ r st1, generate_detailed_answer context question st = (r, st1) →
              generate_detailed_answer context question st1 = (r, st1)).
Proof.
  intros Hst. split_and!; intros r st1 E.
  - destruct (extract_relevant_sentences_first context question st Hst)
      as (st1' & E' & Hext & HT & HW).
    rewrite E' in E. simplify_eq.
    apply extract_relevant_sentences_settled; [by apply Hext|done|done].
  - destruct (optional_cue_scan_first true 20 3 definition_patterns
                definition_cues context st) as (st1' & E' & Hext & Hd);
      [lia|apply compile_definition_patterns|done|].
    change (optional_cue_scan true 20 3 definition_patterns context)
      with (extract_definitions context) in E'.
    rewrite E' in E. simplify_eq.
    apply (optional_cue_scan_settled true 20 3 definition_patterns
             definition_cues);
      [lia|apply compile_definition_patterns|by apply Hext|done].
  - destruct (optional_cue_scan_first true 30 2 example_patterns
                example_cues context st) as (st1' & E' & Hext & He);
      [lia|apply compile_example_patterns|done|].
    change (optional_cue_scan true 30 2 example_patterns context)
      with (extract_examples context) in E'.
    rewrite E' in E. simplify_eq.
    apply (optional_cue_scan_settled true 30 2 example_patterns example_cues);
      [lia|apply compile_example_patterns|by apply Hext|done].
  - destruct (generate_detailed_answer_first context question st Hst)
      as (st1' & E' & Hext & HT & HW & Hcues).
    rewrite E' in E. simplify_eq.
    apply generate_detailed_answer_settled; [by apply Hext|done..].
Qed.

(** ** The sentences of a context *)

Lemma split_from_TermRun_free prev s skip cur piece :
  Forall (λ c, terminator c = false) cur →
  piece ∈ split_from false TermRun prev s skip cur →
  Forall (λ c, terminator c = false) piece.
Proof.
  revert prev skip cur. induction s as [|c s IH]; intros prev skip cur Hcur.
  - cbn [split_from]. intros ->%list_elem_of_singleton. by apply Forall_rev.
  - cbn [split_from]. destruct skip as [|k]; [|by apply IH].
    unfold match_at. cbn [run_length].
    destruct (terminator c) eqn:Hc.
    + intros [->|Hin]%elem_of_cons; [by apply Forall_rev|].
      eapply IH; [|exact Hin]. constructor.
    + apply IH. by constructor.
Qed.

Lemma lstrip_Forall (P : ascii → Prop) s : Forall P s → Forall P (lstrip s).
Proof.
  induction 1 as [|c s Hc Hs IH]; cbn [lstrip]; [constructor|].
  destruct (is_space c); [done|by constructor].
Qed.

Lemma strip_Forall (P : ascii → Prop) s : Forall P s → Forall P (strip s).
Proof.
  intros H. unfold strip, rstrip.
  by apply Forall_rev, lstrip_Forall, Forall_rev, lstrip_Forall.
Qed.

Lemma sentences_of_free context s :
  s ∈ sentences_of context → Forall (λ c, terminator c = false) s.
Proof.
  unfold sentences_of. intros (piece & -> & Hin)%list_elem_of_fmap.
  apply strip_Forall. eapply split_from_TermRun_free; [|exact Hin]. constructor.
Qed.

Lemma starts_with_elem p s c :
  starts_with same_char p s = true → c ∈ p → c ∈ s.
Proof.
  revert s. induction p as [|a p IH]; intros [|b s]; cbn [starts_with];
    try done; [by intros _ ?%elem_of_nil|].
  intros [Hab Hps]%andb_true_iff.
  apply bool_decide_eq_true in Hab as ->.
  intros [->|Hc]%elem_of_cons; [left|right; by eapply IH].
Qed.

Lemma contains_elem sub s c : contains sub s = true → c ∈ sub → c ∈ s.
Proof.
  induction s as [|b s IH]; cbn [contains].
  - rewrite orb_false_r. apply starts_with_elem.
  - intros [H|H]%orb_true_iff Hc; [by eapply starts_with_elem|].
    right. by apply IH.
Qed.

Lemma no_eg_in_sentence context s :
  s ∈ sentences_of context → contains (lower (lit "e.g.")) (lower s) = false.
Proof.
  intros Hs. destruct (contains _ _) eqn:E; [|done].
  assert ("."%char ∈ lower s) as Hdot.
  { eapply contains_elem; [exact E|]. by vm_compute; right; left. }
  unfold lower in Hdot. apply list_elem_of_fmap in Hdot as (c & Hc & Hin).
  pose proof (sentences_of_free context s Hs) as Hfree.
  rewrite Forall_forall in Hfree. specialize (Hfree c Hin).
  destruct c as [[] [] [] [] [] [] [] []]; vm_compute in Hc, Hfree; congruence.
Qed.

Lemma has_cue_without_eg context s :
  s ∈ sentences_of context →
  has_cue example_cues s = has_cue example_cues_without_eg s.
Proof.
  intros Hs. unfold has_cue, example_cues, example_cues_without_eg.
  cbn [map existsb]. by rewrite (no_eg_in_sentence context s Hs).
Qed.

Lemma cue_sentences_clean min_len cap cues context :
  Forall clean_sentence (cue_sentences min_len cap cues context).
Proof.
  apply Forall_forall. intros s Hs. unfold cue_sentences in Hs.
  apply subseteq_take, list_elem_of_filter in Hs as [[Hlen _] Hin].
  split_and!.
  - by eapply sentences_of_trimmed.
  - intros ->. simpl in Hlen. lia.
  - by eapply sentences_of_free.
Qed.

Lemma relevant_sentences_clean context question :
  Forall clean_sentence (relevant_sentences_of context question).
Proof.
  apply Forall_forall. intros s Hs.
  destruct (relevant_sentences_trimmed _ _ _ Hs) as [Hin Htrim].
  split_and!; [done| |by eapply sentences_of_free].
  unfold relevant_sentences_of in Hs. apply subseteq_take in Hs.
  destruct (truthy _); apply subseteq_take in Hs;
    apply list_elem_of_filter in Hs as [Hp _]; intros ->.
  - destruct Hp as [Hlen _]. simpl in Hlen. lia.
  - simpl in Hp. lia.
Qed.

(** X9.  Every sentence that the sentence selector, the definition
    extractor or the example extractor returns is trimmed (stripping it
    again changes nothing), is not empty, and contains none of the
    characters ".", "!", "?". *)
Theorem extracted_sentences_are_clean
    (context question : str) (st : State) :
  cache_ok st →
  ∃ relevant_sentences definitions examples st1 st2 st3,
    extract_relevant_sentences context question st =
      (Ret relevant_sentences, st1)
    ∧ extract_definitions context st = (Ret definitions, st2)
    ∧ extract_examples context st = (Ret examples, st3)
    ∧ Forall (λ s, strip s = s ∧ s ≠ []
                   ∧ Forall (λ c, c ≠ "."%char ∧ c ≠ "!"%char ∧ c ≠ "?"%char) s)
        (relevant_sentences ++ definitions ++ examples).
Proof.
  intros Hst.
  destruct (yields_extract_relevant_sentences context question st Hst)
    as (r & st1 & Er & -> & _).
  destruct (yields_extract_definitions context st Hst)
    as (d & st2 & Ed & -> & _).
  destruct (yields_extract_examples context st Hst)
    as (e & st3 & Ee & -> & _).
  eexists _, _, _, st1, st2, st3. split_and!; [exact Er|exact Ed|exact Ee|].
  eapply Forall_impl.
  - rewrite !Forall_app. split_and!;
      [apply relevant_sentences_clean|apply cue_sentences_clean..].
  - intros s (Htrim & Hne & Hfree). split_and!; [done..|].
    eapply Forall_impl; [exact Hfree|]. intros c Hc. cbv beta in Hc.
    unfold terminator in Hc.
    apply orb_false_iff in Hc as [Hc H3]. apply orb_false_iff in Hc as [H1 H2].
    apply bool_decide_eq_false in H1, H2, H3. done.
Qed.

Lemma filter_agree {A} (P Q : A → Prop)
    `{∀ x, Decision (P x)} `{∀ x, Decision (Q x)} (l : list A) :
  (∀ x, x ∈ l → P x ↔ Q x) → filter P l = filter Q l.
Proof.
  induction l as [|x l IH]; intros Hagree; [done|].
  rewrite !filter_cons.
  assert (filter P l = filter Q l) as ->.
  { apply IH. intros y Hy. apply Hagree. by right. }
  destruct (decide (P x)) as [HP|HP], (decide (Q x)) as [HQ|HQ]; try done.
  - destruct HQ. apply Hagree; [left|done].
  - destruct HP. apply Hagree; [left|done].
Qed.

(** X10.  The example pattern [e\.g\.] never selects a sentence: a
    sentence holds no "." once the context is split at the sentence
    terminators.  From a state with a sound cache, [extract_examples]
    returns the first 2 trimmed sentences longer than 30 that contain
    one of the seven other cue phrases. *)
Theorem extract_examples_ignores_eg (context : str) (st : State) :
  cache_ok st →
  Forall (λ s, contains (lit "e.g.") (lower s) = false) (sentences_of context)
  ∧ ∃ st1,
      extract_examples context st =
        (Ret (take 2 (filter (cued 30 example_cues_without_eg)
                        (sentences_of context))), st1).
Proof.
  intros Hst. split.
  - apply Forall_forall. intros s Hs. by apply (no_eg_in_sentence context).
  - destruct (yields_extract_examples context st Hst)
      as (e & st1 & Ee & -> & _).
    exists st1. rewrite Ee. do 2 f_equal. unfold cue_sentences. f_equal.
    apply filter_agree. intros s Hs. unfold cued.
    by rewrite (has_cue_without_eg context s Hs).
Qed.

(** ** The composers *)

Lemma format_key_topics_unfold context :
  format_key_topics context =
  join nl (enumerate1 (λ i sentence, num i ++ lit ". **" ++ sentence ++ lit "**")
             (take 4 (filter (λ s, 50 < length s) (sentences_of context)))).
Proof.
  unfold format_key_topics. cbv zeta. by rewrite substantial_filter.
Qed.

Lemma no_long_sentence_no_topic context :
  filter (λ s, 40 < length s) (sentences_of context) = [] →
  filter (λ s, 50 < length s) (sentences_of context) = [].
Proof.
  intros H40.
  destruct (filter (λ s, 50 < length s) _) as [|s l] eqn:E50; [done|].
  assert (s ∈ filter (λ s, 50 < length s) (sentences_of context)) as Hs
    by (rewrite E50; left).
  apply list_elem_of_filter in Hs as [Hlen Hin].
  assert (s ∈ filter (λ s, 40 < length s) (sentences_of context)) as Hs'
    by (apply list_elem_of_filter; split; [lia|done]).
  rewrite H40 in Hs'. by apply elem_of_nil in Hs'.
Qed.

Lemma relevant_sentences_of_nil context question :
  relevant_sentences_of context question = [] →
  filter (relevant (question_terms_of question)) (sentences_of context) = []
  ∧ filter (λ s, 40 < length s) (sentences_of context) = [].
Proof.
  unfold relevant_sentences_of.
  destruct (filter (relevant _) _) as [|m ms]; cbn [truthy]; [|done].
  rewrite take_take, Nat.min_id.
  destruct (filter (λ s, 40 < length s) _); [done|done].
Qed.

(** X11.  When the sentence selector returns no sentence, so that
    [generate_detailed_answer] hands over to
    [generate_comprehensive_fallback], the list of main topics in that
    answer is always empty: the selector returns nothing only when no
    sentence is longer than 40 characters, and a topic must be longer
    than 50. *)
Theorem fallback_answer_has_no_topics
    (context question : str) (st st1 : State) :
  cache_ok st →
  extract_relevant_sentences context question st = (Ret [], st1) →
  format_key_topics context = []
  ∧ generate_detailed_answer context question st =
    (Ret (generate_comprehensive_fallback context question
            (extract_key_terms context)), st1).
Proof.
  intros Hst E.
  destruct (yields_extract_relevant_sentences context question st Hst)
    as (r & st1' & E' & Hr & _).
  rewrite E in E'. injection E' as <- <-. symmetry in Hr. split.
  - destruct (relevant_sentences_of_nil _ _ Hr) as [_ H40].
    rewrite format_key_topics_unfold, (no_long_sentence_no_topic _ H40).
    done.
  - unfold generate_detailed_answer, bind. by rewrite E.
Qed.

(** X12.  From a state with a sound cache, [generate_detailed_answer]
    assembles its answer from the selected sentences whenever there is
    one.  The definitions are left out exactly when 6 sentences were
    selected; the examples are never left out, because the selector
    returns at most 6 sentences and the examples are skipped only from
    8. *)
Theorem generate_detailed_answer_sections
    (context question : str) (st : State) :
  cache_ok st →
  ∃ relevant_sentences st1 st2,
    extract_relevant_sentences context question st =
      (Ret relevant_sentences, st1)
    ∧ generate_detailed_answer context question st =
      (Ret (if decide (relevant_sentences = []) then
              generate_comprehensive_fallback context question
                (extract_key_terms context)
            else
              assemble_answer context question (extract_key_terms context)
                relevant_sentences
                (if decide (length relevant_sentences = 6) then []
                 else take 3 (filter (cued 20 definition_cues)
                                (sentences_of context)))
                (take 2 (filter (cued 30 example_cues)
                           (sentences_of context)))), st2).
Proof.
  intros Hst.
  destruct (yields_extract_relevant_sentences context question st Hst)
    as (r & st1 & Er & -> & _).
  destruct (yields_generate_detailed_answer context question st Hst)
    as (a & st2 & Ea & -> & _).
  exists (relevant_sentences_of context question), st1, st2.
  split; [done|]. rewrite Ea. do 2 f_equal.
  unfold detailed_answer_of. cbv zeta.
  assert (length (relevant_sentences_of context question) ≤ 6) as Hlen
    by (unfold relevant_sentences_of; rewrite length_take; lia).
  destruct (relevant_sentences_of context question) as [|s l] eqn:Hrs;
    [done|].
  cbn [truthy negb]. rewrite decide_False by done.
  assert ((length (s :: l) <? 8) = true) as -> by (apply Nat.ltb_lt; lia).
  destruct (decide (length (s :: l) = 6)) as [H6|H6].
  - assert ((length (s :: l) <? 6) = false) as -> by (apply Nat.ltb_ge; lia).
    done.
  - assert ((length (s :: l) <? 6) = true) as -> by (apply Nat.ltb_lt; lia).
    done.
Qed.

(** ** The context gate *)

(** X13.  Only the first three chunks count: chunks supplied after the
    third change neither the answer nor the state that
    [generate_answer] leaves. *)
Theorem generate_answer_uses_three_chunks
    (W : World) (context_chunks more : list str) (question : str) (st : State) :
  3 ≤ length context_chunks →
  generate_answer W (context_chunks ++ more) question st =
  generate_answer W context_chunks question st.
Proof.
  intros Hlen. unfold generate_answer, generate_answer_with. cbv zeta.
  by rewrite take_app_le.
Qed.

Lemma lstrip_all_space s : Forall (λ c, is_space c = true) s → lstrip s = [].
Proof. induction 1 as [|c s Hc _ IH]; cbn [lstrip]; [done|by rewrite Hc]. Qed.

(** X14.  A context made of white space only is refused whatever its
    length: [generate_answer] returns the insufficient-text message and
    leaves the state as it was. *)
Theorem generate_answer_refuses_blank_context
    (W : World) (context_chunks : list str) (question : str) (st : State) :
  Forall (λ c, is_space c = true) (join nl (take 3 context_chunks)) →
  generate_answer W context_chunks question st = (Ret INSUFFICIENT_TEXT, st).
Proof.
  intros Hblank. unfold generate_answer, generate_answer_with. cbv zeta.
  unfold strip. rewrite (lstrip_all_space _ Hblank).
  by rewrite orb_true_r.
Qed.

(** ** Letter case *)

Lemma lower_char_facts c :
  terminator (lower_char c) = terminator c
  ∧ is_space (lower_char c) = is_space c
  ∧ lower_char (lower_char c) = lower_char c.
Proof. destruct c as [[] [] [] [] [] [] [] []]; by vm_compute. Qed.

Lemma lower_idemp s : lower (lower s) = lower s.
Proof.
  unfold lower. induction s as [|c s IH]; [done|].
  cbn [map]. rewrite IH. f_equal. apply lower_char_facts.
Qed.

Lemma lower_rev s : lower (rev s) = rev (lower s).
Proof. unfold lower. apply map_rev. Qed.

Lemma lstrip_lower s : lstrip (lower s) = lower (lstrip s).
Proof.
  induction s as [|c s IH]; [done|].
  cbn [lower map lstrip].
  destruct (lower_char_facts c) as (_ & -> & _).
  destruct (is_space c); [apply IH|done].
Qed.

Lemma strip_lower s : strip (lower s) = lower (strip s).
Proof.
  unfold strip, rstrip.
  by rewrite lstrip_lower, <- lower_rev, lstrip_lower, lower_rev.
Qed.

Lemma run_length_terminator_lower s :
  run_length terminator (lower s) = run_length terminator s.
Proof.
  induction s as [|c s IH]; [done|].
  cbn [lower map run_length].
  destruct (lower_char_facts c) as (-> & _).
  destruct (terminator c); [by f_equal|done].
Qed.

Lemma split_from_TermRun_lower prev prev' s skip cur :
  split_from false TermRun prev (lower s) skip (lower cur) =
  map lower (split_from false TermRun prev' s skip cur).
Proof.
  revert prev prev' skip cur.
  induction s as [|c s IH]; intros prev prev' skip cur.
  - cbn. by rewrite lower_rev.
  - change (lower (c :: s)) with (lower_char c :: lower s).
    cbn [split_from]. destruct skip as [|k]; [|apply IH].
    unfold match_at.
    change (lower_char c :: lower s) with (lower (c :: s)).
    rewrite run_length_terminator_lower.
    destruct (run_length terminator (c :: s)) as [|n].
    + apply (IH _ _ 0 (c :: cur)).
    + cbn [map]. rewrite lower_rev. f_equal. apply (IH _ _ n []).
Qed.

Lemma filter_map_agree {A} (f : A → A) (P : A → Prop)
    `{∀ x, Decision (P x)} (l : list A) :
  (∀ x, P (f x) ↔ P x) → filter P (map f l) = map f (filter P l).
Proof.
  intros Hagree. induction l as [|x l IH]; [done|].
  cbn [map]. rewrite !filter_cons, IH.
  destruct (decide (P (f x))) as [HP|HP], (decide (P x)) as [HQ|HQ];
    try done.
  - destruct HQ. by apply Hagree.
  - destruct HP. by apply Hagree.
Qed.

Lemma sentences_of_lower context :
  sentences_of (lower context) = map lower (sentences_of context).
Proof.
  unfold sentences_of, re_split.
  change (split_from false TermRun None (lower context) 0 [])
    with (split_from false TermRun None (lower context) 0 (lower [])).
  rewrite (split_from_TermRun_lower None None context 0 []).
  rewrite !map_map. apply map_ext. intros s. apply strip_lower.
Qed.

Lemma lower_length s : length (lower s) = length s.
Proof. apply length_map. Qed.

Lemma relevant_lower terms s : relevant terms (lower s) ↔ relevant terms s.
Proof. unfold relevant, mentions. by rewrite lower_length, lower_idemp. Qed.

Lemma cued_lower min_len cues s : cued min_len cues (lower s) ↔ cued min_len cues s.
Proof. unfold cued, has_cue. by rewrite lower_length, lower_idemp. Qed.

Lemma long_lower n s : n < length (lower s) ↔ n < length s.
Proof. by rewrite lower_length. Qed.

Lemma relevant_sentences_of_lower context question :
  relevant_sentences_of (lower context) question =
  map lower (relevant_sentences_of context question).
Proof.
  unfold relevant_sentences_of. rewrite sentences_of_lower.
  rewrite (filter_map_agree lower (relevant _)) by apply relevant_lower.
  rewrite (filter_map_agree lower (λ s, 40 < length s)) by apply long_lower.
  destruct (filter (relevant _) _) as [|m ms]; cbn [truthy map].
  - by rewrite !firstn_map.
  - by rewrite <- !firstn_map.
Qed.

Lemma cue_sentences_lower min_len cap cues context :
  cue_sentences min_len cap cues (lower context) =
  map lower (cue_sentences min_len cap cues context).
Proof.
  unfold cue_sentences. rewrite sentences_of_lower.
  rewrite (filter_map_agree lower (cued _ _)) by apply cued_lower.
  by rewrite firstn_map.
Qed.

(** X15.  Letter case plays no part in the selection.  Two questions
    with the same lower-casing select the same sentences; lower-casing
    the context selects the same sentences, lower-cased, for the
    sentence selector, the definition extractor and the example
    extractor; and the key terms of a text are those of its
    lower-casing. *)
Theorem letter_case_is_ignored
    (context question1 question2 : str) (st : State) :
  cache_ok st →
  lower question1 = lower question2 →
  ∃ relevant_sentences definitions examples st1 st2 st3 st4 st5 st6 st7,
    extract_relevant_sentences context question1 st =
      (Ret relevant_sentences, st1)
    ∧ extract_relevant_sentences context question2 st =
      (Ret relevant_sentences, st2)
    ∧ extract_relevant_sentences (lower context) question1 st =
      (Ret (map lower relevant_sentences), st3)
    ∧ extract_definitions context st = (Ret definitions, st4)
    ∧ extract_definitions (lower context) st = (Ret (map lower definitions), st5)
    ∧ extract_examples context st = (Ret examples, st6)
    ∧ extract_examples (lower context) st = (Ret (map lower examples), st7)
    ∧ extract_key_terms (lower context) = extract_key_terms context.
Proof.
  intros Hst Hq.
  destruct (yields_extract_relevant_sentences context question1 st Hst)
    as (r1 & st1 & E1 & -> & _).
  destruct (yields_extract_relevant_sentences context question2 st Hst)
    as (r2 & st2 & E2 & -> & _).
  destruct (yields_extract_relevant_sentences (lower context) question1 st Hst)
    as (r3 & st3 & E3 & -> & _).
  destruct (yields_extract_definitions context st Hst)
    as (d1 & st4 & E4 & -> & _).
  destruct (yields_extract_definitions (lower context) st Hst)
    as (d2 & st5 & E5 & -> & _).
  destruct (yields_extract_examples context st Hst)
    as (e1 & st6 & E6 & -> & _).
  destruct (yields_extract_examples (lower context) st Hst)
    as (e2 & st7 & E7 & -> & _).
  rewrite relevant_sentences_of_lower in E3.
  rewrite cue_sentences_lower in E5, E7.
  assert (relevant_sentences_of context question2 =
          relevant_sentences_of context question1) as Hsame
    by (unfold relevant_sentences_of, question_terms_of; by rewrite Hq).
  rewrite Hsame in E2.
  eexists _, _, _, st1, st2, st3, st4, st5, st6, st7.
  split_and!; [exact E1|exact E2|exact E3|exact E4|exact E5|exact E6|exact E7|].
  unfold extract_key_terms. by rewrite lower_idemp.
Qed.

End Library.

(** * The properties at sample inputs

    The theorems above hold for every pattern library.  Here they are
    applied to sample inputs, with [sample_library]. *)

#[global] Existing Instance sample_library.

(** The sample library on its two sources: what the object compiled
    from [a+] answers, and the calls of the cache that reach the
    library. *)
Example plus_behaviour_demo :
  b_findall (plus_behaviour "a") (lit "baAab aa") = [lit "aAa"; lit "aa"]
  ∧ b_split (plus_behaviour "a") (lit "baAab aa") = [lit "b"; lit "b "; lit ""]
  ∧ b_split (plus_behaviour "a") (lit "aab") = [lit ""; lit "b"]
  ∧ b_split (plus_behaviour "a") (lit "") = [lit ""]
  ∧ b_search (plus_behaviour "a") (lit "xyz") = false.
Proof. split_and!; by vm_compute. Qed.

Lemma re_compile_plus :
  re_compile (lit "a+") = Ret (Foreign (plus_behaviour "a")).
Proof.
  unfold re_compile.
  change (in_fragment (lit "a+")) with (@None regex).
  unfold re_compile_foreign, sample_library. by rewrite decide_True.
Qed.

Lemma re_compile_unterminated :
  re_compile (lit "(") =
  Raise (lit "missing ), unterminated subpattern at position 0").
Proof. by vm_compute. Qed.

(** A direct call with a source that the library compiles creates one
    object and stores it. *)
Lemma get_cached_pattern_plus :
  get_cached_pattern (lit "a+") initial_state =
  (Ret (mkMatcher 0 (lit "a+") true (Foreign (plus_behaviour "a"))),
   mkState None
     (<[lit "a+" := mkMatcher 0 (lit "a+") true (Foreign (plus_behaviour "a"))]> ∅)
     1 0 [] []).
Proof.
  exact (get_cached_pattern_miss (lit "a+") _ initial_state
           (lookup_empty _) re_compile_plus).
Qed.

(** A direct call with a malformed source raises the library's
    exception and stores nothing. *)
Lemma get_cached_pattern_unterminated :
  get_cached_pattern (lit "(") initial_state =
  (Raise (lit "missing ), unterminated subpattern at position 0"),
   initial_state).
Proof.
  exact (get_cached_pattern_invalid (lit "(") _ initial_state
           (lookup_empty _) re_compile_unterminated).
Qed.

(** C1, at a sample input. The context "Short text." is refused, in the
    initial state. *)
Lemma generate_answer_insufficient_text_witness :
  generate_answer_with (λ _ _, raise (lit "unused")) (λ _ _, raise (lit "unused"))
    [lit "Short text."] (lit "Why?") initial_state =
    (Ret INSUFFICIENT_TEXT, initial_state)
  ∧ generate_answer offline_world [lit "Short text."] (lit "Why?") initial_state =
    (Ret INSUFFICIENT_TEXT, initial_state).
Proof.
  apply (generate_answer_insufficient_text offline_world
           (λ _ _, raise (lit "unused")) (λ _ _, raise (lit "unused"))
           [lit "Short text."] (lit "Why?") initial_state).
  right. vm_compute. lia.
Defined.

(** C2, at a sample input. A remote adapter that raises "boom" on a long
    enough context. *)
Lemma generate_answer_error_witness :
  generate_answer_with (λ _ _, raise (lit "boom")) (λ _ _, ret [])
    [photosynthesis_context] photosynthesis_question initial_state =
    (Ret (lit "Error processing your question: boom"), initial_state).
Proof.
  apply (proj2 (proj2 (generate_answer_never_raises (λ _ _, raise (lit "boom"))
                         (λ _ _, ret []) [photosynthesis_context]
                         photosynthesis_question initial_state))).
  - discriminate.
  - vm_compute. lia.
  - reflexivity.
Defined.

(** C3, at a sample input. The photosynthesis example in
    [offline_world], from the initial state. *)
Lemma generate_answer_falls_back_to_composer_witness :
  ∃ answer st2,
    generate_answer offline_world [photosynthesis_context]
      photosynthesis_question initial_state = (Ret answer, st2)
    ∧ generate_detailed_answer (join nl (take 3 [photosynthesis_context]))
        photosynthesis_question after_offline_attempt = (Ret answer, st2)
    ∧ ∀ st0, cache_ok st0 →
        ∃ st3,
          generate_detailed_answer (join nl (take 3 [photosynthesis_context]))
            photosynthesis_question st0 = (Ret answer, st3).
Proof.
  apply (generate_answer_falls_back_to_composer offline_world
           [photosynthesis_context] photosynthesis_question initial_state
           after_offline_attempt).
  - vm_compute. lia.
  - exact cache_ok_initial.
  - by vm_compute.
Defined.

(** C4, at a sample input. The photosynthesis example, from the initial
    state. *)
Lemma extract_relevant_sentences_spec_witness :
  ∃ result st',
    extract_relevant_sentences photosynthesis_context photosynthesis_question
      initial_state = (Ret result, st')
    ∧ length result ≤ 6.
Proof.
  destruct (extract_relevant_sentences_spec photosynthesis_context
              photosynthesis_question initial_state cache_ok_initial)
    as (result & st' & E & Hlen & _).
  exists result, st'. exact (conj E Hlen).
Defined.

(** C6, at a sample input. The photosynthesis example, from the initial
    state. *)
Lemma extract_definitions_examples_spec_witness :
  ∃ definitions examples st1 st2,
    extract_definitions photosynthesis_context initial_state =
      (Ret definitions, st1)
    ∧ extract_examples photosynthesis_context initial_state =
      (Ret examples, st2)
    ∧ length definitions ≤ 3
    ∧ length examples ≤ 2.
Proof.
  destruct (extract_definitions_examples_spec photosynthesis_context
              initial_state cache_ok_initial)
    as (definitions & examples & st1 & st2 & Ed & Ee & Hd & He & _).
  exists definitions, examples, st1, st2. exact (conj Ed (conj Ee (conj Hd He))).
Defined.

(** C8, at a sample input. The example run from the initial state. *)
Lemma photosynthesis_example_witness :
  ∃ st1 st2 st3,
    extract_relevant_sentences photosynthesis_context
      photosynthesis_question initial_state = (Ret [photosynthesis_first], st1)
    ∧ extract_definitions photosynthesis_context initial_state =
      (Ret [photosynthesis_first], st2)
    ∧ extract_examples photosynthesis_context initial_state =
      (Ret [photosynthesis_second], st3).
Proof.
  exact (proj2 (photosynthesis_example initial_state cache_ok_initial)).
Defined.

(** C8, as the specification states it, fails: the sentence selector
    does not return both sentences. *)
Lemma photosynthesis_selector_returns_one_sentence :
  (extract_relevant_sentences photosynthesis_context photosynthesis_question
     initial_state).1 = Ret [photosynthesis_first]
  ∧ (extract_relevant_sentences photosynthesis_context photosynthesis_question
       initial_state).1 ≠ Ret [photosynthesis_first; photosynthesis_second].
Proof. vm_compute. split; [reflexivity|discriminate]. Qed.

(** C9, at sample inputs.  The sentence splitter, and the source [a+]
    that the module does not use: compiled first, then other calls,
    then asked for again. *)
Lemma get_cached_pattern_same_instance_witness :
  get_cached_pattern TERMINATORS
    (run_all offline_world sample_operations after_first_compile) =
  (Ret first_matcher, run_all offline_world sample_operations after_first_compile)
  ∧ get_cached_pattern (lit "a+")
      (run_all offline_world sample_operations
         (get_cached_pattern (lit "a+") initial_state).2) =
    (Ret (mkMatcher 0 (lit "a+") true (Foreign (plus_behaviour "a"))),
     run_all offline_world sample_operations
       (get_cached_pattern (lit "a+") initial_state).2).
Proof.
  split.
  - apply (proj2 (get_cached_pattern_same_instance offline_world TERMINATORS
                    initial_state sample_operations)).
    by vm_compute.
  - apply (proj2 (get_cached_pattern_same_instance offline_world (lit "a+")
                    initial_state sample_operations)).
    by rewrite get_cached_pattern_plus.
Defined.

(** C10, at a sample input. The question "Why?" has no word of four
    letters. *)
Lemma no_search_terms_takes_fallback_witness :
  scan_relevant (question_terms_of (lit "Why?"))
    (re_split false TermRun (lit "Short text.")) [] = []
  ∧ (∃ st1,
       extract_relevant_sentences (lit "Short text.") (lit "Why?")
         initial_state =
         (Ret (take 6 (filter (λ s, 40 < length s)
                         (sentences_of (lit "Short text.")))), st1))
  ∧ (take 6 (filter (λ s, 40 < length s) (sentences_of (lit "Short text.")))
     = [] →
     ∃ st2,
       generate_detailed_answer (lit "Short text.") (lit "Why?") initial_state =
         (Ret (generate_comprehensive_fallback (lit "Short text.") (lit "Why?")
                 (extract_key_terms (lit "Short text."))), st2)).
Proof.
  apply (no_search_terms_takes_fallback (lit "Short text.") (lit "Why?")
           initial_state).
  - vm_compute. constructor.
  - exact cache_ok_initial.
Defined.

(** X1, at a sample input. In [online_world] the first call sets a
    client; it is still there after the sample calls. *)
Lemma set_client_is_kept_witness :
  watsonx_client
    (run_all online_world sample_operations
       (get_watsonx_client online_world initial_state).2) =
    Some (configured_client online_world)
  ∧ connections
      (run_all online_world sample_operations
         (get_watsonx_client online_world initial_state).2) =
    connections (get_watsonx_client online_world initial_state).2.
Proof.
  apply (set_client_is_kept online_world sample_operations
           (get_watsonx_client online_world initial_state).2
           (configured_client online_world)).
  by vm_compute.
Defined.



(** X5, at a sample input. The photosynthesis example in [online_world]. *)
Lemma generate_answer_returns_remote_answer_witness :
  generate_answer online_world [photosynthesis_context] photosynthesis_question
    initial_state =
    (Ret (format_watsonx_answer (lit "Generated text.") photosynthesis_question),
     (generate_watsonx_answer online_world
        (join nl (take 3 [photosynthesis_context])) photosynthesis_question
        initial_state).2)
  ∧ pattern_cache
      (generate_watsonx_answer online_world
         (join nl (take 3 [photosynthesis_context])) photosynthesis_question
         initial_state).2 = pattern_cache initial_state
  ∧ compiled
      (generate_watsonx_answer online_world
         (join nl (take 3 [photosynthesis_context])) photosynthesis_question
         initial_state).2 = compiled initial_state.
Proof.
  apply (generate_answer_returns_remote_answer online_world
           [photosynthesis_context] photosynthesis_question).
  - vm_compute. lia.
  - by vm_compute.
Defined.


(** X8, at a sample input. The photosynthesis example, from the initial
    state. *)
Lemma second_call_changes_nothing_witness :
  generate_detailed_answer photosynthesis_context photosynthesis_question
    (generate_detailed_answer photosynthesis_context photosynthesis_question
       initial_state).2 =
  generate_detailed_answer photosynthesis_context photosynthesis_question
    initial_state.
Proof.
  destruct (generate_detailed_answer photosynthesis_context
              photosynthesis_question initial_state) as [r st1] eqn:E.
  exact (proj2 (proj2 (proj2
    (second_call_changes_nothing photosynthesis_context
       photosynthesis_question initial_state cache_ok_initial))) r st1 E).
Defined.

(** X9, at a sample input. The photosynthesis example, from the initial
    state. *)
Lemma extracted_sentences_are_clean_witness :
  ∃ relevant_sentences definitions examples st1 st2 st3,
    extract_relevant_sentences photosynthesis_context photosynthesis_question
      initial_state = (Ret relevant_sentences, st1)
    ∧ extract_definitions photosynthesis_context initial_state =
      (Ret definitions, st2)
    ∧ extract_examples photosynthesis_context initial_state =
      (Ret examples, st3)
    ∧ Forall (λ s, strip s = s ∧ s ≠ []
                   ∧ Forall (λ c, c ≠ "."%char ∧ c ≠ "!"%char ∧ c ≠ "?"%char) s)
        (relevant_sentences ++ definitions ++ examples).
Proof.
  exact (extracted_sentences_are_clean photosynthesis_context
           photosynthesis_question initial_state cache_ok_initial).
Defined.

(** X10, at a sample input. A context with "e.g." in it, from the
    initial state. *)
Lemma extract_examples_ignores_eg_witness :
  Forall (λ s, contains (lit "e.g.") (lower s) = false)
    (sentences_of (lit "Some animals, e.g. cats and dogs, live with people at home."))
  ∧ ∃ st1,
      extract_examples
        (lit "Some animals, e.g. cats and dogs, live with people at home.")
        initial_state =
        (Ret (take 2 (filter (cued 30 example_cues_without_eg)
                        (sentences_of (lit "Some animals, e.g. cats and dogs, live with people at home.")))),
         st1).
Proof.
  exact (extract_examples_ignores_eg
           (lit "Some animals, e.g. cats and dogs, live with people at home.")
           initial_state cache_ok_initial).
Defined.

(** X11, at a sample input. A context of short sentences and a question
    without search terms. *)
Lemma fallback_answer_has_no_topics_witness :
  format_key_topics (lit "Cats purr. Dogs bark. Birds sing. Fish swim. Cows moo. Pigs oink.") = []
  ∧ generate_detailed_answer
      (lit "Cats purr. Dogs bark. Birds sing. Fish swim. Cows moo. Pigs oink.")
      (lit "Why?") initial_state =
    (Ret (generate_comprehensive_fallback
            (lit "Cats purr. Dogs bark. Birds sing. Fish swim. Cows moo. Pigs oink.")
            (lit "Why?")
            (extract_key_terms
               (lit "Cats purr. Dogs bark. Birds sing. Fish swim. Cows moo. Pigs oink."))),
     (extract_relevant_sentences
        (lit "Cats purr. Dogs bark. Birds sing. Fish swim. Cows moo. Pigs oink.")
        (lit "Why?") initial_state).2).
Proof.
  apply (fallback_answer_has_no_topics
           (lit "Cats purr. Dogs bark. Birds sing. Fish swim. Cows moo. Pigs oink.")
           (lit "Why?") initial_state).
  - exact cache_ok_initial.
  - by vm_compute.
Defined.

(** X12, at a sample input. The photosynthesis example, from the initial
    state. *)
Lemma generate_detailed_answer_sections_witness :
  ∃ relevant_sentences st1 st2,
    extract_relevant_sentences photosynthesis_context photosynthesis_question
      initial_state = (Ret relevant_sentences, st1)
    ∧ generate_detailed_answer photosynthesis_context photosynthesis_question
        initial_state =
      (Ret (if decide (relevant_sentences = []) then
              generate_comprehensive_fallback photosynthesis_context
                photosynthesis_question
                (extract_key_terms photosynthesis_context)
            else
              assemble_answer photosynthesis_context photosynthesis_question
                (extract_key_terms photosynthesis_context)
                relevant_sentences
                (if decide (length relevant_sentences = 6) then []
                 else take 3 (filter (cued 20 definition_cues)
                                (sentences_of photosynthesis_context)))
                (take 2 (filter (cued 30 example_cues)
                           (sentences_of photosynthesis_context)))), st2).
Proof.
  exact (generate_detailed_answer_sections photosynthesis_context
           photosynthesis_question initial_state cache_ok_initial).
Defined.

(** X13, at a sample input. Three chunks and a fourth one. *)
Lemma generate_answer_uses_three_chunks_witness :
  generate_answer offline_world
    ([lit "First chunk."; lit "Second chunk."; photosynthesis_context]
     ++ [lit "Ignored chunk about photosynthesis."])
    photosynthesis_question initial_state =
  generate_answer offline_world
    [lit "First chunk."; lit "Second chunk."; photosynthesis_context]
    photosynthesis_question initial_state.
Proof.
  apply (generate_answer_uses_three_chunks offline_world
           [lit "First chunk."; lit "Second chunk."; photosynthesis_context]).
  simpl. lia.
Defined.

(** X14, at a sample input. Sixty spaces in three chunks. *)
Lemma generate_answer_refuses_blank_context_witness :
  generate_answer offline_world
    [repeat " "%char 20; repeat " "%char 20; repeat " "%char 20]
    photosynthesis_question initial_state =
    (Ret INSUFFICIENT_TEXT, initial_state).
Proof.
  apply (generate_answer_refuses_blank_context offline_world
           [repeat " "%char 20; repeat " "%char 20; repeat " "%char 20]).
  apply (bool_decide_unpack _). by vm_compute.
Defined.

(** X15, at a sample input. The photosynthesis question in capitals,
    from the initial state. *)
Lemma letter_case_is_ignored_witness :
  ∃ relevant_sentences definitions examples st1 st2 st3 st4 st5 st6 st7,
    extract_relevant_sentences photosynthesis_context
      (lit "WHAT IS PHOTOSYNTHESIS?") initial_state =
      (Ret relevant_sentences, st1)
    ∧ extract_relevant_sentences photosynthesis_context
        photosynthesis_question initial_state =
      (Ret relevant_sentences, st2)
    ∧ extract_relevant_sentences (lower photosynthesis_context)
        (lit "WHAT IS PHOTOSYNTHESIS?") initial_state =
      (Ret (map lower relevant_sentences), st3)
    ∧ extract_definitions photosynthesis_context initial_state =
      (Ret definitions, st4)
    ∧ extract_definitions (lower photosynthesis_context) initial_state =
      (Ret (map lower definitions), st5)
    ∧ extract_examples photosynthesis_context initial_state =
      (Ret examples, st6)
    ∧ extract_examples (lower photosynthesis_context) initial_state =
      (Ret (map lower examples), st7)
    ∧ extract_key_terms (lower photosynthesis_context) =
      extract_key_terms photosynthesis_context.
Proof.
  apply (letter_case_is_ignored photosynthesis_context
           (lit "WHAT IS PHOTOSYNTHESIS?") photosynthesis_question
           initial_state).
  - exact cache_ok_initial.
  - by vm_compute.
Defined.
